(** * Fraud case store and verification workflow (backend/src/fraud_agent.py)

    A shallow embedding of the case store ([_read_db], [_write_db]) and of the
    three tools built on it ([load_case], [verify_answer], [update_case]),
    followed by the properties of the store and workflow specification.

    Conventions of the embedding:
    - a Python [str] is a [string] whose characters are the code points below
      256; [str_lower] and [str_strip] follow [str.lower] and [str.strip] on
      that range;
    - the values produced by [json.load] are the type [value]; a [dict] is an
      association list in insertion order, as [json.dump] writes it back;
    - exceptions are explicit: a computation returns [Ok] or [Raise];
    - the file system is the pair of files the module touches, [DB_PATH] and
      [DB_PATH + ".tmp"], threaded through a state-and-exception monad; a
      file holding the text [json.dump] writes for [v] is represented by [v],
      which is what [json.load] reads back from it;
    - what the environment decides (a failing write, the clock) is an explicit
      argument of the operation that depends on it;
    - the [logger.error] calls do not influence any result and are left out. *)

From Stdlib Require Import String Ascii List Bool Arith.
From Stdlib Require Import ZArith.
From Stdlib Require Import Floats.SpecFloat.
Import ListNotations.
Open Scope string_scope.
Open Scope list_scope.

Set Warnings "-register-all".

(* ------------------------------------------------------------------------- *)
(** ** Python strings *)
(* ------------------------------------------------------------------------- *)

Module PyStr.

(** [str.isspace] on one character, for code points below 256:
    U+0009..U+000D, U+001C..U+0020, U+0085 and U+00A0. *)
Definition is_space (c : ascii) : bool :=
  let n := nat_of_ascii c in
  (((9 <=? n) && (n <=? 13)) || ((28 <=? n) && (n <=? 32))
   || (n =? 133) || (n =? 160))%nat.

(** [str.lower] on one character: A..Z, and the Latin-1 capitals
    U+00C0..U+00DE without the multiplication sign U+00D7. *)
Definition lower_char (c : ascii) : ascii :=
  let n := nat_of_ascii c in
  if (((65 <=? n) && (n <=? 90))
      || ((192 <=? n) && (n <=? 222) && negb (n =? 215)))%nat
  then ascii_of_nat (n + 32) else c.

Fixpoint str_lower (s : string) : string :=
  match s with
  | EmptyString => EmptyString
  | String c s' => String (lower_char c) (str_lower s')
  end.

Fixpoint str_lstrip (s : string) : string :=
  match s with
  | EmptyString => EmptyString
  | String c s' => if is_space c then str_lstrip s' else s
  end.

Fixpoint str_rstrip (s : string) : string :=
  match s with
  | EmptyString => EmptyString
  | String c s' =>
      match str_rstrip s' with
      | EmptyString => if is_space c then EmptyString else String c EmptyString
      | r => String c r
      end
  end.

(** [s.strip()] with no argument. *)
Definition str_strip (s : string) : string := str_rstrip (str_lstrip s).

(** [not s] for a string. *)
Definition is_empty (s : string) : bool :=
  match s with EmptyString => true | _ => false end.

End PyStr.
Import PyStr.

(* ------------------------------------------------------------------------- *)
(** ** Values read from and written to the JSON document *)
(* ------------------------------------------------------------------------- *)

(** What [json.load] builds: [None], [bool], [int], [float], [str], [list]
    and [dict] (keys in document order). *)
Inductive value : Type :=
| VNone
| VBool (b : bool)
| VInt (z : Z)
| VFloat (f : spec_float)
| VStr (s : string)
| VList (l : list value)
| VDict (m : list (string * value)).

(** Python truthiness, as used by [x or ""] and [if not case]. *)
Definition truthy (v : value) : bool :=
  match v with
  | VNone => false
  | VBool b => b
  | VInt z => negb (Z.eqb z 0)
  | VFloat (S754_zero _) => false
  | VFloat _ => true
  | VStr s => negb (is_empty s)
  | VList l => match l with [] => false | _ => true end
  | VDict m => match m with [] => false | _ => true end
  end.

Module Dict.

Definition t := list (string * value).

(** [d.get(k)]: [None] stands for a missing key. *)
Fixpoint get (k : string) (d : t) : option value :=
  match d with
  | [] => None
  | (k', v) :: d' => if String.eqb k' k then Some v else get k d'
  end.

(** [d[k] = v]: an existing key keeps its position, a new key goes last. *)
Fixpoint set (k : string) (v : value) (d : t) : t :=
  match d with
  | [] => [(k, v)]
  | (k', v') :: d' =>
      if String.eqb k' k then (k', v) :: d' else (k', v') :: set k v d'
  end.

(** [d.setdefault(k, v)], for its effect on [d]. *)
Definition setdefault (k : string) (v : value) (d : t) : t :=
  match get k d with
  | Some _ => d
  | None => set k v d
  end.

(** The entries of [d] under keys other than [k1] and [k2], in order. *)
Definition others (k1 k2 : string) (d : t) : t :=
  filter (fun e => negb (String.eqb (fst e) k1 || String.eqb (fst e) k2)) d.

End Dict.

(* ------------------------------------------------------------------------- *)
(** ** Exceptions, the two files, and the monad of the module *)
(* ------------------------------------------------------------------------- *)

(** The exceptions the modelled code can meet; all are subclasses of
    [Exception], so [except Exception] catches each of them. *)
Inductive exn : Type :=
| AttributeError
| TypeError
| KeyError
| OSError
| JSONDecodeError.

Inductive result (A : Type) : Type :=
| Ok (a : A)
| Raise (e : exn).
Arguments Ok {A} a.
Arguments Raise {A} e.

(** A path on disk, seen through [os.path.exists], [open] and [json.load]. *)
Inductive file : Type :=
| Absent                    (* no such path *)
| Unreadable                (* exists, but [open] or [read] raises [OSError] *)
| Malformed                 (* readable, but [json.load] rejects the text *)
| Document (v : value).     (* the text is the serialisation of [v] *)

Record world : Type := World {
  db_file : file;           (* the file at [DB_PATH] *)
  tmp_file : file           (* the file at [DB_PATH + ".tmp"] *)
}.

(** What the environment does to one call of [_write_db]. *)
Inductive write_fault : Type :=
| NoFault
| FailOpen                  (* [open(tmp_path, "w")] raises *)
| FailDump                  (* [json.dump], or closing the file, raises *)
| FailReplace.              (* [os.replace] raises *)

Class Monad (m : Type -> Type) : Type := {
  ret : forall {A}, A -> m A;
  bind : forall {A B}, m A -> (A -> m B) -> m B
}.

Notation "x <- c ;; k" := (bind c (fun x => k))
  (at level 61, c at next level, right associativity).
Notation "c ;; k" := (bind c (fun _ => k))
  (at level 61, right associativity).

#[export] Instance Monad_result : Monad result := {
  ret := fun A a => Ok a;
  bind := fun A B c k => match c with Ok a => k a | Raise e => Raise e end
}.

(** State and exceptions: an exception keeps the state reached so far. *)
Definition M (A : Type) : Type := world -> result A * world.

#[export] Instance Monad_M : Monad M := {
  ret := fun A a w => (Ok a, w);
  bind := fun A B c k w =>
    match c w with
    | (Ok a, w') => k a w'
    | (Raise e, w') => (Raise e, w')
    end
}.

Definition lift {A} (r : result A) : M A := fun w => (r, w).

(** [try: body  except Exception as e: handler]. *)
Definition try_except {A} (body : M A) (handler : exn -> M A) : M A :=
  fun w =>
    match body w with
    | (Ok a, w') => (Ok a, w')
    | (Raise e, w') => handler e w'
    end.

(* ------------------------------------------------------------------------- *)
(** ** Database helpers *)
(* ------------------------------------------------------------------------- *)

(** [os.path.exists(DB_PATH)]. *)
Definition path_exists : M bool :=
  fun w => (Ok (match db_file w with Absent => false | _ => true end), w).

(** [with open(DB_PATH, "r") as f: json.load(f)]. *)
Definition open_json_load : M value :=
  fun w =>
    (match db_file w with
     | Absent => Raise OSError
     | Unreadable => Raise OSError
     | Malformed => Raise JSONDecodeError
     | Document v => Ok v
     end, w).

Definition _read_db : M (list value) :=
  e <- path_exists ;;
  if negb e then ret []
  else
    try_except
      (data <- open_json_load ;;
       ret (match data with VList l => l | _ => [] end))
      (fun _ => ret []).

(** [open(tmp_path, "w")]: truncates the temporary file. *)
Definition open_tmp_w (fault : write_fault) : M unit :=
  fun w =>
    match fault with
    | FailOpen => (Raise OSError, w)
    | _ => (Ok tt, {| db_file := db_file w; tmp_file := Malformed |})
    end.

(** [json.dump(data, f, ...)] and the close at the end of the [with]. *)
Definition json_dump_tmp (fault : write_fault) (data : list value) : M unit :=
  fun w =>
    match fault with
    | FailDump => (Raise OSError, w)
    | _ => (Ok tt, {| db_file := db_file w; tmp_file := Document (VList data) |})
    end.

(** [os.replace(tmp_path, DB_PATH)]. *)
Definition os_replace (fault : write_fault) : M unit :=
  fun w =>
    match fault with
    | FailReplace => (Raise OSError, w)
    | _ => (Ok tt, {| db_file := tmp_file w; tmp_file := Absent |})
    end.

Definition _write_db (fault : write_fault) (data : list value) : M unit :=
  try_except
    (open_tmp_w fault ;;
     json_dump_tmp fault data ;;
     os_replace fault)
    (fun _ => ret tt).

(* ------------------------------------------------------------------------- *)
(** ** Tools exposed to the LLM *)
(* ------------------------------------------------------------------------- *)

(** [v.get(k)]: only a [dict] has the method. *)
Definition value_get (k : string) (v : value) : result (option value) :=
  match v with
  | VDict d => Ok (Dict.get k d)
  | _ => Raise AttributeError
  end.

(** [v.lower()] and [v.strip()]: only a [str] has the methods. *)
Definition method_lower (v : value) : result string :=
  match v with
  | VStr s => Ok (str_lower s)
  | _ => Raise AttributeError
  end.

Definition method_strip (v : value) : result string :=
  match v with
  | VStr s => Ok (str_strip s)
  | _ => Raise AttributeError
  end.

(** [v.append(x)]: only a [list] has the method. *)
Definition method_append (x : value) (v : value) : result value :=
  match v with
  | VList l => Ok (VList (l ++ [x]))
  | _ => Raise AttributeError
  end.

(** [x or ""]. *)
Definition or_empty (v : value) : value :=
  if truthy v then v else VStr "".

(** [(userName or "").strip().lower()], for an argument of type [str]. *)
Definition normalize (s : string) : string := str_lower (str_strip s).

(** [case.get("userName", "").lower() == userName]. *)
Definition name_matches (userName : string) (case : value) : result bool :=
  o <- value_get "userName" case ;;
  n <- method_lower (match o with Some v => v | None => VStr "" end) ;;
  ret (String.eqb n userName).

(** The [for case in _read_db()] loop of [load_case]. *)
Fixpoint load_loop (userName : string) (cases : list value)
  : result (option value) :=
  match cases with
  | [] => Ok None
  | case :: rest =>
      b <- name_matches userName case ;;
      if b : bool then ret (Some case) else load_loop userName rest
  end.

Definition load_case (userName : string) : M (option value) :=
  let userName := normalize userName in
  if is_empty userName then ret None
  else
    cases <- _read_db ;;
    lift (load_loop userName cases).

Definition verify_answer (userName answer : string) : M bool :=
  case <- load_case userName ;;
  match case with
  | None => ret false
  | Some case =>
      if negb (truthy case) then ret false
      else
        lift (sa <- value_get "securityAnswer" case ;;
              let sa := match sa with Some v => v | None => VNone end in
              stripped <- method_strip (or_empty sa) ;;
              let expected := str_lower stripped in
              let answer := normalize answer in
              ret (String.eqb answer expected))
  end.

(** The entry [{"timestamp": ..., "note": outcomeNote}]; [now] is the value of
    [datetime.utcnow().isoformat(timespec="seconds")]. *)
Definition history_entry (now outcomeNote : string) : value :=
  VDict [("timestamp", VStr now); ("note", VStr outcomeNote)].

(** The three statements that mutate the matched case [c]. *)
Definition mutate_case (status outcomeNote now : string) (c : value)
  : result value :=
  match c with
  | VDict d =>
      let d := Dict.set "status" (VStr status) d in
      let d := Dict.setdefault "history" (VList []) d in
      match Dict.get "history" d with
      | Some h =>
          h' <- method_append (history_entry now outcomeNote) h ;;
          ret (VDict (Dict.set "history" h' d))
      | None => Raise KeyError
      end
  | _ => Raise TypeError
  end.

(** The [for c in cases] loop of [update_case], up to the call of
    [_write_db]: [Some cases'] is the list [cases] after the in-place
    mutation of the first match, [None] means the loop ran to its end. *)
Fixpoint update_loop (userName status outcomeNote now : string)
  (cases : list value) : result (option (list value)) :=
  match cases with
  | [] => Ok None
  | c :: rest =>
      b <- name_matches userName c ;;
      if b : bool then
        c' <- mutate_case status outcomeNote now c ;;
        ret (Some (c' :: rest))
      else
        r <- update_loop userName status outcomeNote now rest ;;
        ret (option_map (cons c) r)
  end.

Section UpdateCase.

(** The absolute path of [fraud_cases.json], fixed when the module loads. *)
Variable DB_PATH : string.

Definition saved : string := "saved:" ++ DB_PATH.
Definition not_found : string := "error:not_found".

Definition update_case (now : string) (fault : write_fault)
  (userName status outcomeNote : string) : M string :=
  let userName := normalize userName in
  cases <- _read_db ;;
  r <- lift (update_loop userName status outcomeNote now cases) ;;
  match r with
  | Some cases' =>
      _write_db fault cases' ;;
      ret saved
  | None => ret not_found
  end.

End UpdateCase.

(* ------------------------------------------------------------------------- *)
(** ** Scenario of the specification *)
(* ------------------------------------------------------------------------- *)

Module Scenario.

Definition alice : value :=
  VDict [("userName", VStr "alice"); ("securityAnswer", VStr "blue");
         ("status", VStr "pending"); ("history", VList [])].

Definition w0 : world :=
  {| db_file := Document (VList [alice]); tmp_file := Absent |}.

Definition path : string := "/srv/backend/fraud_cases.json".

(** A record whose stored name carries trailing whitespace. *)
Definition padded : value :=
  VDict [("userName", VStr "alice "); ("status", VStr "pending")].

Definition w_padded : world :=
  {| db_file := Document (VList [padded]); tmp_file := Absent |}.

(** A record whose stored name is empty. *)
Definition nameless : value :=
  VDict [("userName", VStr ""); ("status", VStr "pending")].

Definition w_nameless : world :=
  {| db_file := Document (VList [nameless]); tmp_file := Absent |}.

(** A record with a null security answer and no history. *)
Definition carol : Dict.t :=
  [("userName", VStr "carol"); ("securityAnswer", VNone);
   ("status", VStr "pending")].

Definition w_carol : world :=
  {| db_file := Document (VList [VDict carol]); tmp_file := Absent |}.

End Scenario.

(* ------------------------------------------------------------------------- *)
(** ** Vocabulary of the properties *)
(* ------------------------------------------------------------------------- *)

(** The sequence of cases a reader of the store obtains. *)
Definition stored_cases (w : world) : list value :=
  match db_file w with
  | Document (VList l) => l
  | _ => []
  end.

(** A case of the data model, as far as the scans look at it: a [dict] whose
    [userName], when present, is a [str]. *)
Definition is_record (c : value) : bool :=
  match c with
  | VDict d =>
      match Dict.get "userName" d with
      | None | Some (VStr _) => true
      | Some _ => false
      end
  | _ => false
  end.

(** The lowercased stored name the scans compare with the key. *)
Definition lower_name (c : value) : string :=
  match c with
  | VDict d =>
      match Dict.get "userName" d with
      | Some (VStr n) => str_lower n
      | _ => ""
      end
  | _ => ""
  end.

(** The history of a record before an update: a missing field counts as the
    empty sequence; a field that is no sequence has no reading. *)
Definition history_of (d : Dict.t) : option (list value) :=
  match Dict.get "history" d with
  | None => Some []
  | Some (VList l) => Some l
  | Some _ => None
  end.

(** [cases] splits at its first record matching [key]: the records before it
    are scanned and do not match, and [VDict d] matches. *)
Definition first_match (key : string) (cases pre : list value) (d : Dict.t)
  (post : list value) : Prop :=
  cases = pre ++ VDict d :: post
  /\ Forall (fun c => name_matches key c = Ok false) pre
  /\ name_matches key (VDict d) = Ok true.

(** The matched record after the three mutating statements, when its history
    was the sequence [h]. *)
Definition updated (status outcomeNote now : string) (h : list value)
  (d : Dict.t) : Dict.t :=
  Dict.set "history" (VList (h ++ [history_entry now outcomeNote]))
    (Dict.setdefault "history" (VList []) (Dict.set "status" (VStr status) d)).

(** The security answer of a case is missing, null, or blank after trimming. *)
Definition blank_security_answer (c : value) : bool :=
  match value_get "securityAnswer" c with
  | Ok None | Ok (Some VNone) => true
  | Ok (Some (VStr s)) => is_empty (str_strip s)
  | _ => false
  end.

(** The lookup as the specification words it: both the stored name and the
    identity are trimmed and lowercased before they are compared. *)
Module Spec.

Definition matches (u : string) (c : value) : bool :=
  match c with
  | VDict d =>
      match Dict.get "userName" d with
      | Some (VStr n) => String.eqb (normalize n) (normalize u)
      | _ => false
      end
  | _ => false
  end.

Definition load (u : string) (cases : list value) : option value :=
  find (matches u) cases.

End Spec.

(* ------------------------------------------------------------------------- *)
(** ** Two calls of [update_case] in flight *)
(* ------------------------------------------------------------------------- *)

(** [update_case] takes no lock, and the files at [DB_PATH] and at
    [DB_PATH + ".tmp"] are shared by every job process of the worker (and by
    any thread that calls the tools).  A call of another process may
    therefore run between any two statements of a call: after
    [cases = _read_db()] and the loop, and after each of the three statements
    of [_write_db].  Within one event loop the body has no [await], so there
    its statements are never separated.

    A file that is open for writing is followed through [os.replace]: the
    open file stays the same file when the other call moves it to [DB_PATH]
    or replaces it there.  What the model leaves undefined ([None]) is a
    second [json.dump] into a file that was already written since it was
    last truncated: the text it leaves depends on the lengths of the two
    texts. *)
Module Interleaving.

Record call : Type := Call {
  c_now : string;
  c_fault : write_fault;
  c_userName : string;
  c_status : string;
  c_outcomeNote : string
}.

(** Where the file a call has open for writing is linked. *)
Inductive handle : Type :=
| AtTmp                  (* at [tmp_path], where it was opened *)
| AtDb                   (* at [DB_PATH]: the other call's [os.replace] moved it *)
| Unlinked.              (* nowhere: it was replaced at [DB_PATH] in its turn *)

Inductive pc : Type :=
| Start                                (* before [cases = _read_db()] *)
| Loaded (cases' : list value)         (* case mutated, before [open(tmp_path, "w")] *)
| Opened (cases' : list value) (h : handle)
                                       (* in the [with] block, before [json.dump] *)
| Dumped (cases' : list value)         (* file closed, before [os.replace] *)
| Returned (r : result string).

Inductive turn : Type := A | B.

Definition other (t : turn) : turn :=
  match t with A => B | B => A end.

Record config : Type := Config {
  pcA : pc;
  pcB : pc;
  fs : world;
  tmp_written : bool;    (* the file at [tmp_path] was written since it was
                            last truncated *)
  db_written : bool      (* the same, for a file moved to [DB_PATH] *)
}.

Definition pc_of (t : turn) (c : config) : pc :=
  match t with A => pcA c | B => pcB c end.

Definition make (t : turn) (mine theirs : pc) (w : world) (tw dw : bool)
  : config :=
  match t with
  | A => {| pcA := mine; pcB := theirs; fs := w;
            tmp_written := tw; db_written := dw |}
  | B => {| pcA := theirs; pcB := mine; fs := w;
            tmp_written := tw; db_written := dw |}
  end.

(** A call that is not inside its [with] block holds no file open. *)
Definition quiet (p : pc) : bool :=
  match p with Opened _ _ => false | _ => true end.

(** The open file of the other call after an [os.replace]. *)
Definition moved (p : pc) : pc :=
  match p with
  | Opened cases' AtTmp => Opened cases' AtDb
  | Opened cases' AtDb => Opened cases' Unlinked
  | _ => p
  end.

(** [json.dump(data, f)] and the close, through an open file linked at [h]. *)
Definition json_dump_at (h : handle) (fault : write_fault)
  (data : list value) : M unit :=
  fun w =>
    match fault with
    | FailDump => (Raise OSError, w)
    | _ =>
        (Ok tt,
         match h with
         | AtTmp => {| db_file := db_file w; tmp_file := Document (VList data) |}
         | AtDb => {| db_file := Document (VList data); tmp_file := tmp_file w |}
         | Unlinked => w
         end)
    end.

Section Steps.

Variable DB_PATH : string.

(** From the entry of the body to the call of [_write_db], or to the
    return when no case matches. *)
Definition read_step (a : call) (w : world) : pc * world :=
  match (cases <- _read_db ;;
         lift (update_loop (normalize (c_userName a)) (c_status a)
                 (c_outcomeNote a) (c_now a) cases)) w with
  | (Ok (Some cases'), w') => (Loaded cases', w')
  | (Ok None, w') => (Returned (Ok not_found), w')
  | (Raise e, w') => (Returned (Raise e), w')
  end.

(** One statement of the call [a], taken by [t].  An exception inside
    [_write_db] is caught there, and the call returns the saved outcome. *)
Definition step (t : turn) (a : call) (c : config) : option config :=
  let theirs := pc_of (other t) c in
  let done := Returned (Ok (saved DB_PATH)) in
  match pc_of t c with
  | Start =>
      let (p, w) := read_step a (fs c) in
      Some (make t p theirs w (tmp_written c) (db_written c))
  | Loaded cases' =>
      match open_tmp_w (c_fault a) (fs c) with
      | (Ok _, w) =>
          Some (make t (Opened cases' AtTmp) theirs w false (db_written c))
      | (Raise _, w) =>
          Some (make t done theirs w (tmp_written c) (db_written c))
      end
  | Opened cases' h =>
      let written :=
        match h with
        | AtTmp => tmp_written c
        | AtDb => db_written c
        | Unlinked => false
        end in
      if written then None
      else
        let tw := match h with AtTmp => true | _ => tmp_written c end in
        let dw := match h with AtDb => true | _ => db_written c end in
        match json_dump_at h (c_fault a) cases' (fs c) with
        | (Ok _, w) => Some (make t (Dumped cases') theirs w tw dw)
        | (Raise _, w) => Some (make t done theirs w tw dw)
        end
  | Dumped cases' =>
      match tmp_file (fs c) with
      | Absent =>
          (* [FileNotFoundError]: the other call has moved the file *)
          Some (make t done theirs (fs c) (tmp_written c) (db_written c))
      | _ =>
          match os_replace (c_fault a) (fs c) with
          | (Ok _, w) =>
              Some (make t done (moved theirs) w false (tmp_written c))
          | (Raise _, w) =>
              Some (make t done theirs w (tmp_written c) (db_written c))
          end
      end
  | Returned r => Some c
  end.

(** The whole call, run without interruption. *)
Definition run_call (a : call) (w : world) : result string * world :=
  update_case DB_PATH (c_now a) (c_fault a) (c_userName a) (c_status a)
    (c_outcomeNote a) w.

Definition init (w : world) : config :=
  {| pcA := Start; pcB := Start; fs := w;
     tmp_written := false; db_written := false |}.

Definition call_of (a b : call) (t : turn) : call :=
  match t with A => a | B => b end.

Definition sched (a b : call) (t : turn) (c : config) : option config :=
  step t (call_of a b t) c.

Fixpoint run (a b : call) (schedule : list turn) (c : config)
  : option config :=
  match schedule with
  | [] => Some c
  | t :: rest =>
      match sched a b t c with
      | Some c' => run a b rest c'
      | None => None
      end
  end.

End Steps.

(** All statements of A, then all statements of B. *)
Definition serial : list turn := [A; A; A; A; B; B; B; B].

(** Read A, read B, the three statements of A's write, then those of B's. *)
Definition read_read_write_write : list turn := [A; B; A; A; A; B; B; B].

(** A reads, opens and dumps; B reads and truncates the shared temporary
    file; A replaces. *)
Definition truncated_before_replace : list turn := [A; A; A; B; B; A].

End Interleaving.

(** Two calls on different cases of one store. *)
Module Race.

Import Interleaving.

Definition bob : value :=
  VDict [("userName", VStr "bob"); ("securityAnswer", VStr "red");
         ("status", VStr "pending"); ("history", VList [])].

Definition w0 : world :=
  {| db_file := Document (VList [Scenario.alice; bob]); tmp_file := Absent |}.

Definition callA : call :=
  {| c_now := "2025-11-27T10:00:00"; c_fault := NoFault;
     c_userName := "alice"; c_status := "confirmed_safe";
     c_outcomeNote := "ok" |}.

Definition callB : call :=
  {| c_now := "2025-11-27T10:00:00"; c_fault := NoFault;
     c_userName := "bob"; c_status := "confirmed_fraud";
     c_outcomeNote := "card blocked" |}.

Definition alice_updated : value :=
  VDict [("userName", VStr "alice"); ("securityAnswer", VStr "blue");
         ("status", VStr "confirmed_safe");
         ("history",
          VList [VDict [("timestamp", VStr "2025-11-27T10:00:00");
                        ("note", VStr "ok")]])].

Definition bob_updated : value :=
  VDict [("userName", VStr "bob"); ("securityAnswer", VStr "red");
         ("status", VStr "confirmed_fraud");
         ("history",
          VList [VDict [("timestamp", VStr "2025-11-27T10:00:00");
                        ("note", VStr "card blocked")]])].

(** A queue of three cases, the middle one alice's. *)
Definition w3 : world :=
  {| db_file := Document (VList [bob; Scenario.alice; VDict Scenario.carol]);
     tmp_file := Absent |}.

End Race.

(* ------------------------------------------------------------------------- *)
(** ** Vocabulary of the further properties *)
(* ------------------------------------------------------------------------- *)

(** Every character of [s] is whitespace for [str.strip]. *)
Fixpoint all_space (s : string) : bool :=
  match s with
  | EmptyString => true
  | String c s' => is_space c && all_space s'
  end.

(** [c'] is the record [c] with one entry appended to its history and, apart
    from that, at most the status changed. *)
Definition history_appended (now outcomeNote : string) (c c' : value) : Prop :=
  exists d d' h,
    c = VDict d /\ c' = VDict d'
    /\ Dict.others "status" "history" d' = Dict.others "status" "history" d
    /\ history_of d = Some h
    /\ history_of d' = Some (h ++ [history_entry now outcomeNote]).

(** [c'] is [c] itself, or [c] after the mutation of [update_case]. *)
Definition kept_or_updated (status outcomeNote now : string) (c c' : value)
  : Prop :=
  c' = c
  \/ exists d h, c = VDict d /\ history_of d = Some h
                 /\ c' = VDict (updated status outcomeNote now h d).

(** The sequence a call of [update_case] leaves to the next reader when its
    write succeeds: the mutated one if the loop reached [_write_db], the one
    it read otherwise. *)
Definition apply_update (key status outcomeNote now : string)
  (cases : list value) : list value :=
  match update_loop key status outcomeNote now cases with
  | Ok (Some cases') => cases'
  | _ => cases
  end.

(** Whether the loop of [update_case] reaches [_write_db]. *)
Definition reaches_write (key status outcomeNote now : string)
  (cases : list value) : bool :=
  match update_loop key status outcomeNote now cases with
  | Ok (Some _) => true
  | _ => false
  end.

(** Stores with records the tools trip over. *)
Module Edge.

(** A store whose first element is no object. *)
Definition w_stray : world :=
  {| db_file := Document (VList [VInt 7; Scenario.alice]); tmp_file := Absent |}.

(** A record whose history is null. *)
Definition dave : Dict.t :=
  [("userName", VStr "dave"); ("securityAnswer", VStr "green");
   ("status", VStr "pending"); ("history", VNone)].

Definition w_dave : world :=
  {| db_file := Document (VList [VDict dave]); tmp_file := Absent |}.

(** Records whose security answer is a number: 42, and 0. *)
Definition erin : Dict.t :=
  [("userName", VStr "erin"); ("securityAnswer", VInt 42)].

Definition w_erin : world :=
  {| db_file := Document (VList [VDict erin]); tmp_file := Absent |}.

Definition finn : Dict.t :=
  [("userName", VStr "finn"); ("securityAnswer", VInt 0)].

Definition w_finn : world :=
  {| db_file := Document (VList [VDict finn]); tmp_file := Absent |}.

(** A record without a name. *)
Definition anon : Dict.t := [("status", VStr "pending")].

Definition w_anon : world :=
  {| db_file := Document (VList [VDict anon]); tmp_file := Absent |}.

End Edge.

(* ------------------------------------------------------------------------- *)
(** ** The scenario, run *)
(* ------------------------------------------------------------------------- *)

Example strip_surrounding_only :
  str_strip (String (ascii_of_nat 9) "  Ann Lee  ") = "Ann Lee".
Proof. reflexivity. Qed.

Example lower_letters_only : str_lower "Ann-LEE 42" = "ann-lee 42".
Proof. reflexivity. Qed.

Example load_alice :
  fst (load_case "Alice " Scenario.w0) = Ok (Some Scenario.alice).
Proof. reflexivity. Qed.

Example verify_alice :
  fst (verify_answer "alice" "Blue" Scenario.w0) = Ok true.
Proof. reflexivity. Qed.

Example update_alice :
  update_case Scenario.path "2025-11-27T10:00:00" NoFault
    "alice" "confirmed_safe" "ok" Scenario.w0
  = (Ok "saved:/srv/backend/fraud_cases.json",
     {| db_file := Document (VList
          [VDict [("userName", VStr "alice"); ("securityAnswer", VStr "blue");
                  ("status", VStr "confirmed_safe");
                  ("history", VList [history_entry "2025-11-27T10:00:00" "ok"])]]);
        tmp_file := Absent |}).
Proof. reflexivity. Qed.

Example update_bob :
  update_case Scenario.path "2025-11-27T10:00:00" NoFault
    "bob" "x" "y" Scenario.w0
  = (Ok "error:not_found", Scenario.w0).
Proof. reflexivity. Qed.

(** [update_case] has no guard on an empty identity: it matches a record
    whose stored name is empty, which [load_case] never returns. *)
Example update_empty_identity :
  fst (update_case Scenario.path "2025-11-27T10:00:00" NoFault
         " " "x" "y" Scenario.w_nameless) = Ok (saved Scenario.path)
  /\ fst (load_case " " Scenario.w_nameless) = Ok None.
Proof. split; reflexivity. Qed.

(* ------------------------------------------------------------------------- *)
(** ** The monad and the store *)
(* ------------------------------------------------------------------------- *)

Lemma Ok_inj {A} (a b : A) : Ok a = Ok b -> a = b.
Proof. congruence. Qed.

Lemma bind_M_run {A B} (c : M A) (k : A -> M B) (w : world) :
  (x <- c ;; k x) w
  = match c w with
    | (Ok a, w') => k a w'
    | (Raise e, w') => (Raise e, w')
    end.
Proof. reflexivity. Qed.

Lemma read_db_run (w : world) : _read_db w = (Ok (stored_cases w), w).
Proof.
  unfold _read_db, stored_cases, try_except, path_exists, open_json_load.
  destruct w as [f t]; cbn.
  destruct f as [ | | | v]; cbn; try reflexivity.
Qed.

(** A write without fault installs the document and removes the temporary
    file. *)
Lemma write_db_no_fault (data : list value) (w : world) :
  _write_db NoFault data w
  = (Ok tt, {| db_file := Document (VList data); tmp_file := Absent |}).
Proof. reflexivity. Qed.

(** A write never raises, and a write with a fault keeps [DB_PATH]. *)
Lemma write_db_run (fault : write_fault) (data : list value) (w : world) :
  exists w', _write_db fault data w = (Ok tt, w')
             /\ (fault <> NoFault -> db_file w' = db_file w).
Proof.
  destruct fault; eexists; (split; [reflexivity | ]); cbn; intros H;
    try reflexivity; now elim H.
Qed.

(** C6. Reading the store never raises: it returns a sequence and leaves
    the files alone; when the file is missing, cannot be read, holds
    malformed text, or holds a document whose top level is not a sequence,
    the sequence returned is empty. *)
Theorem read_db_fails_open (w : world) :
  (exists cases, _read_db w = (Ok cases, w))
  /\ (db_file w = Absent \/ db_file w = Unreadable \/ db_file w = Malformed
      \/ (exists v, db_file w = Document v /\ forall l, v <> VList l) ->
      _read_db w = (Ok [], w)).
Proof.
  split.
  - exists (stored_cases w). apply read_db_run.
  - intros H. rewrite read_db_run. f_equal. f_equal.
    unfold stored_cases.
    destruct H as [-> | [-> | [-> | (v & -> & Hv)]]]; try reflexivity.
    destruct v; try reflexivity. now elim (Hv l).
Qed.

Lemma read_db_fails_open_witness :
  _read_db {| db_file := Document (VDict [("userName", VStr "alice")]);
              tmp_file := Absent |}
  = (Ok [], {| db_file := Document (VDict [("userName", VStr "alice")]);
               tmp_file := Absent |}).
Proof.
  apply (proj2 (read_db_fails_open _)).
  right; right; right. eexists. split; [reflexivity | discriminate].
Defined.

(* ------------------------------------------------------------------------- *)
(** ** Lookup *)
(* ------------------------------------------------------------------------- *)

Lemma name_matches_record (key : string) (c : value) :
  is_record c = true ->
  name_matches key c = Ok (String.eqb (lower_name c) key).
Proof.
  destruct c as [ | | | | | | d]; cbn; try discriminate.
  destruct (Dict.get "userName" d) as [[ | | | | n | | ] | ]; cbn;
    try discriminate; reflexivity.
Qed.

Lemma load_loop_records (key : string) (cases : list value) :
  Forall (fun c => is_record c = true) cases ->
  load_loop key cases
  = Ok (find (fun c => String.eqb (lower_name c) key) cases).
Proof.
  induction 1 as [ | c rest Hc _ IH]; [reflexivity | ].
  cbn [load_loop find]. rewrite (name_matches_record key c Hc). cbn.
  destruct (String.eqb (lower_name c) key); [reflexivity | exact IH].
Qed.

(** C2, as the specification words it, fails: a stored name with surrounding
    whitespace is found by the specification's lookup and not by
    [load_case], which lowercases the stored name without trimming it; and
    an identity that is blank after trimming finds nothing, also when a
    stored name is empty. *)
Lemma load_case_keeps_stored_whitespace :
  Spec.load "alice" (stored_cases Scenario.w_padded) = Some Scenario.padded
  /\ fst (load_case "alice" Scenario.w_padded) = Ok None
  /\ fst (load_case "alice" Scenario.w_padded)
     <> Ok (Spec.load "alice" (stored_cases Scenario.w_padded))
  /\ Spec.load "  " (stored_cases Scenario.w_nameless) = Some Scenario.nameless
  /\ fst (load_case "  " Scenario.w_nameless) = Ok None.
Proof. repeat split; try reflexivity. discriminate. Qed.

(** C2, amended. On a store of records, [load_case u] leaves the files alone
    and returns not-found when [u], trimmed and lowercased, is empty;
    otherwise it returns the first case in store order whose stored
    [userName], lowercased but not trimmed (a missing one counts as empty),
    equals [u] trimmed and lowercased, and not-found when there is none. *)
Theorem load_case_first_match (w : world) (u : string) :
  Forall (fun c => is_record c = true) (stored_cases w) ->
  load_case u w
  = (Ok (if is_empty (normalize u) then None
         else find (fun c => String.eqb (lower_name c) (normalize u))
                (stored_cases w)),
     w).
Proof.
  intros Hrec. unfold load_case.
  destruct (is_empty (normalize u)); [reflexivity | ].
  rewrite bind_M_run, read_db_run. unfold lift.
  now rewrite (load_loop_records _ _ Hrec).
Qed.

Lemma load_case_first_match_witness :
  load_case "Alice " Scenario.w0 = (Ok (Some Scenario.alice), Scenario.w0).
Proof.
  apply (load_case_first_match Scenario.w0 "Alice ").
  repeat constructor.
Defined.

(* ------------------------------------------------------------------------- *)
(** ** Verification *)
(* ------------------------------------------------------------------------- *)

Lemma load_loop_some (key : string) (cases : list value) (c : value) :
  load_loop key cases = Ok (Some c) -> name_matches key c = Ok true.
Proof.
  induction cases as [ | x rest IH]; cbn [load_loop]; [discriminate | ].
  destruct (name_matches key x) as [[ | ] | e] eqn:E; cbn.
  - intros [= <-]. exact E.
  - exact IH.
  - discriminate.
Qed.

(** The lookup in terms of the store: it returns the first match, and
    nothing when every case is scanned without match. *)
Lemma load_loop_first_match (key : string) (cases pre : list value)
  (d : Dict.t) (post : list value) :
  first_match key cases pre d post ->
  load_loop key cases = Ok (Some (VDict d)).
Proof.
  intros (-> & Hpre & Hm).
  induction Hpre as [ | c pre Hc _ IH]; cbn [app load_loop].
  - now rewrite Hm.
  - now rewrite Hc.
Qed.

Lemma load_loop_no_match (key : string) (cases : list value) :
  Forall (fun c => name_matches key c = Ok false) cases ->
  load_loop key cases = Ok None.
Proof.
  induction 1 as [ | c rest Hc _ IH]; cbn [load_loop]; [reflexivity | ].
  now rewrite Hc.
Qed.

(** A case matching a non-empty key has a [userName] entry, so it is a
    non-empty [dict], which [if not case] lets through. *)
Lemma name_matches_truthy (key : string) (c : value) :
  is_empty key = false -> name_matches key c = Ok true -> truthy c = true.
Proof.
  intros Hkey. destruct c as [ | | | | | | d]; cbn; try discriminate.
  destruct d as [ | e d]; [ | reflexivity].
  cbn. destruct key; [discriminate Hkey | discriminate].
Qed.

Lemma load_case_run (u : string) (w : world) :
  load_case u w
  = (if is_empty (normalize u) then Ok None
     else load_loop (normalize u) (stored_cases w), w).
Proof.
  unfold load_case. destruct (is_empty (normalize u)); [reflexivity | ].
  now rewrite bind_M_run, read_db_run.
Qed.

Lemma load_case_some (u : string) (w : world) (c : value) :
  fst (load_case u w) = Ok (Some c) ->
  load_case u w = (Ok (Some c), w) /\ truthy c = true.
Proof.
  rewrite load_case_run. cbn [fst].
  destruct (is_empty (normalize u)) eqn:Hkey; [discriminate | ].
  intros H. rewrite H. split; [reflexivity | ].
  eapply name_matches_truthy; [exact Hkey | ].
  eapply load_loop_some; exact H.
Qed.

Lemma or_empty_str_strip (s : string) :
  method_strip (or_empty (VStr s)) = Ok (str_strip s).
Proof. destruct s; reflexivity. Qed.

(** C3. When [u] is blank after trimming, or every stored case is scanned
    and none matches [u], [verify_answer u a] returns false for every [a].
    When the store splits at a first case matching a non-blank [u], with
    security answer [s], [verify_answer u a] returns whether [a], trimmed and
    lowercased, equals [s] trimmed and lowercased.  No file changes. *)
Theorem verify_answer_correct (w : world) (u a : string) :
  (is_empty (normalize u) = true
   \/ Forall (fun c => name_matches (normalize u) c = Ok false)
        (stored_cases w) ->
   verify_answer u a w = (Ok false, w))
  /\ (forall pre d post s,
        is_empty (normalize u) = false ->
        first_match (normalize u) (stored_cases w) pre d post ->
        Dict.get "securityAnswer" d = Some (VStr s) ->
        verify_answer u a w
        = (Ok (String.eqb (str_lower (str_strip a)) (str_lower (str_strip s))),
           w)).
Proof.
  split.
  - intros H. unfold verify_answer. rewrite bind_M_run, load_case_run.
    destruct (is_empty (normalize u)) eqn:Hkey; [reflexivity | ].
    destruct H as [H | H]; [discriminate | ].
    now rewrite (load_loop_no_match _ _ H).
  - intros pre d post s Hkey Hfm Hsa.
    assert (Hload : fst (load_case u w) = Ok (Some (VDict d))).
    { rewrite load_case_run, Hkey. cbn [fst].
      now apply load_loop_first_match with (pre := pre) (post := post). }
    destruct (load_case_some _ _ _ Hload) as [Hrun Htruthy].
    unfold verify_answer. rewrite bind_M_run, Hrun, Htruthy. cbn [negb].
    unfold lift, value_get. rewrite Hsa. cbn [bind Monad_result].
    now rewrite or_empty_str_strip.
Qed.

Lemma verify_answer_correct_witness :
  verify_answer "dora" "blue" Race.w3 = (Ok false, Race.w3)
  /\ verify_answer " Alice" " BLUE " Race.w3 = (Ok true, Race.w3)
  /\ verify_answer "alice" "red" Race.w3 = (Ok false, Race.w3).
Proof.
  split; [ | split].
  - apply (proj1 (verify_answer_correct Race.w3 "dora" "blue")).
    right. repeat constructor.
  - apply (proj2 (verify_answer_correct Race.w3 " Alice" " BLUE ")
             [Race.bob]
             [("userName", VStr "alice"); ("securityAnswer", VStr "blue");
              ("status", VStr "pending"); ("history", VList [])]
             [VDict Scenario.carol] "blue").
    + reflexivity.
    + repeat split. repeat constructor.
    + reflexivity.
  - apply (proj2 (verify_answer_correct Race.w3 "alice" "red")
             [Race.bob]
             [("userName", VStr "alice"); ("securityAnswer", VStr "blue");
              ("status", VStr "pending"); ("history", VList [])]
             [VDict Scenario.carol] "blue").
    + reflexivity.
    + repeat split. repeat constructor.
    + reflexivity.
Defined.

(** C9. For a case found by the lookup whose [securityAnswer] is missing,
    null, or blank after trimming, every answer that is blank after trimming
    verifies. *)
Theorem verify_answer_blank (w : world) (u a : string) (c : value) :
  fst (load_case u w) = Ok (Some c) ->
  blank_security_answer c = true ->
  str_strip a = "" ->
  verify_answer u a w = (Ok true, w).
Proof.
  intros Hload Hblank Ha.
  destruct (load_case_some _ _ _ Hload) as [Hrun Htruthy].
  unfold verify_answer. rewrite bind_M_run, Hrun, Htruthy. cbn [negb].
  unfold lift, normalize. rewrite Ha. f_equal.
  unfold blank_security_answer in Hblank.
  destruct (value_get "securityAnswer" c) as [[v | ] | e];
    cbn [bind Monad_result]; try discriminate; [ | reflexivity].
  destruct v; try discriminate; [reflexivity | ].
  rewrite or_empty_str_strip.
  destruct (str_strip s); [reflexivity | discriminate].
Qed.

Lemma verify_answer_blank_witness :
  verify_answer "carol" "   " Scenario.w_carol = (Ok true, Scenario.w_carol).
Proof.
  apply (verify_answer_blank Scenario.w_carol "carol" "   "
           (VDict Scenario.carol)); reflexivity.
Defined.

(* ------------------------------------------------------------------------- *)
(** ** Dictionaries *)
(* ------------------------------------------------------------------------- *)

Module DictFacts.

Lemma get_set_same (k : string) (v : value) (d : Dict.t) :
  Dict.get k (Dict.set k v d) = Some v.
Proof.
  induction d as [ | [k' v'] d IH]; cbn.
  - now rewrite String.eqb_refl.
  - destruct (String.eqb k' k) eqn:E; cbn; rewrite E; [reflexivity | exact IH].
Qed.

Lemma get_set_other (k k' : string) (v : value) (d : Dict.t) :
  k <> k' -> Dict.get k' (Dict.set k v d) = Dict.get k' d.
Proof.
  intros Hne. induction d as [ | [k0 v0] d IH]; cbn.
  - destruct (String.eqb_spec k k'); [contradiction | reflexivity].
  - destruct (String.eqb_spec k0 k) as [-> | Hk]; cbn.
    + destruct (String.eqb_spec k k'); [contradiction | reflexivity].
    + now rewrite IH.
Qed.

Lemma others_set (k1 k2 k : string) (v : value) (d : Dict.t) :
  k = k1 \/ k = k2 ->
  Dict.others k1 k2 (Dict.set k v d) = Dict.others k1 k2 d.
Proof.
  intros Hk.
  assert (Hout : negb (String.eqb k k1 || String.eqb k k2) = false).
  { destruct Hk as [-> | ->]; rewrite String.eqb_refl;
      [reflexivity | now rewrite orb_true_r]. }
  unfold Dict.others.
  induction d as [ | [k0 v0] d IH]; cbn [Dict.set filter fst].
  - now rewrite Hout.
  - destruct (String.eqb_spec k0 k) as [-> | Hne]; cbn [filter fst].
    + now rewrite Hout.
    + now rewrite IH.
Qed.

Lemma get_setdefault_same (k : string) (v : value) (d : Dict.t) :
  Dict.get k (Dict.setdefault k v d)
  = Some (match Dict.get k d with Some x => x | None => v end).
Proof.
  unfold Dict.setdefault.
  destruct (Dict.get k d) eqn:E; [exact E | apply get_set_same].
Qed.

Lemma get_setdefault_other (k k' : string) (v : value) (d : Dict.t) :
  k <> k' -> Dict.get k' (Dict.setdefault k v d) = Dict.get k' d.
Proof.
  intros Hne. unfold Dict.setdefault.
  destruct (Dict.get k d); [reflexivity | now apply get_set_other].
Qed.

Lemma others_setdefault (k1 k2 k : string) (v : value) (d : Dict.t) :
  k = k1 \/ k = k2 ->
  Dict.others k1 k2 (Dict.setdefault k v d) = Dict.others k1 k2 d.
Proof.
  intros Hk. unfold Dict.setdefault.
  destruct (Dict.get k d); [reflexivity | now apply others_set].
Qed.

End DictFacts.

(* ------------------------------------------------------------------------- *)
(** ** The mutation of the matched case *)
(* ------------------------------------------------------------------------- *)

Section Mutation.

Variables status outcomeNote now : string.

Lemma get_history_after_status (d : Dict.t) :
  Dict.get "history"
    (Dict.setdefault "history" (VList []) (Dict.set "status" (VStr status) d))
  = Some (match Dict.get "history" d with Some x => x | None => VList [] end).
Proof.
  rewrite DictFacts.get_setdefault_same.
  now rewrite DictFacts.get_set_other by discriminate.
Qed.

Lemma mutate_case_ok (d : Dict.t) (h : list value) :
  history_of d = Some h ->
  mutate_case status outcomeNote now (VDict d)
  = Ok (VDict (updated status outcomeNote now h d)).
Proof.
  unfold history_of, mutate_case, updated. intros Hh.
  rewrite get_history_after_status.
  destruct (Dict.get "history" d) as [[ | | | | | l | ] | ];
    try discriminate; injection Hh as <-; reflexivity.
Qed.

Lemma mutate_case_inv (c c' : value) :
  mutate_case status outcomeNote now c = Ok c' ->
  exists d h, c = VDict d /\ history_of d = Some h
              /\ c' = VDict (updated status outcomeNote now h d).
Proof.
  destruct c as [ | | | | | | d]; cbn [mutate_case]; try discriminate.
  rewrite get_history_after_status.
  destruct (Dict.get "history" d) as [[ | | | | | l | ] | ] eqn:E;
    cbn; try discriminate; intros [= <-];
    exists d; eexists; unfold history_of; rewrite E;
    repeat split; reflexivity.
Qed.

Lemma updated_status (h : list value) (d : Dict.t) :
  Dict.get "status" (updated status outcomeNote now h d) = Some (VStr status).
Proof.
  unfold updated.
  rewrite DictFacts.get_set_other by discriminate.
  rewrite DictFacts.get_setdefault_other by discriminate.
  apply DictFacts.get_set_same.
Qed.

Lemma updated_history (h : list value) (d : Dict.t) :
  Dict.get "history" (updated status outcomeNote now h d)
  = Some (VList (h ++ [history_entry now outcomeNote])).
Proof. apply DictFacts.get_set_same. Qed.

Lemma updated_others (h : list value) (d : Dict.t) :
  Dict.others "status" "history" (updated status outcomeNote now h d)
  = Dict.others "status" "history" d.
Proof.
  unfold updated.
  rewrite DictFacts.others_set by (now right).
  rewrite DictFacts.others_setdefault by (now right).
  apply DictFacts.others_set. now left.
Qed.

Lemma updated_get_other (k : string) (h : list value) (d : Dict.t) :
  k <> "status" -> k <> "history" ->
  Dict.get k (updated status outcomeNote now h d) = Dict.get k d.
Proof.
  intros Hs Hh. unfold updated.
  rewrite DictFacts.get_set_other by congruence.
  rewrite DictFacts.get_setdefault_other by congruence.
  apply DictFacts.get_set_other. congruence.
Qed.

Lemma updated_name_matches (key : string) (h : list value) (d : Dict.t) :
  name_matches key (VDict (updated status outcomeNote now h d))
  = name_matches key (VDict d).
Proof.
  unfold name_matches, value_get.
  now rewrite updated_get_other by discriminate.
Qed.

Lemma updated_history_of (h : list value) (d : Dict.t) :
  history_of (updated status outcomeNote now h d)
  = Some (h ++ [history_entry now outcomeNote]).
Proof. unfold history_of. now rewrite updated_history. Qed.

(** The loop on a store that splits at its first match. *)
Lemma update_loop_first_match (key : string) (cases pre : list value)
  (d : Dict.t) (post h : list value) :
  first_match key cases pre d post ->
  history_of d = Some h ->
  update_loop key status outcomeNote now cases
  = Ok (Some (pre ++ VDict (updated status outcomeNote now h d) :: post)).
Proof.
  intros (-> & Hpre & Hm) Hh.
  induction Hpre as [ | c pre Hc _ IH]; cbn [app update_loop].
  - rewrite Hm. cbn [bind Monad_result].
    now rewrite (mutate_case_ok _ _ Hh).
  - rewrite Hc. cbn [bind Monad_result]. now rewrite IH.
Qed.

Lemma update_loop_no_match (key : string) (cases : list value) :
  Forall (fun c => name_matches key c = Ok false) cases ->
  update_loop key status outcomeNote now cases = Ok None.
Proof.
  induction 1 as [ | c rest Hc _ IH]; cbn [update_loop]; [reflexivity | ].
  rewrite Hc. cbn [bind Monad_result]. now rewrite IH.
Qed.

(** Whenever the loop reaches [_write_db], the store split at a first
    match whose history was a sequence. *)
Lemma update_loop_some_inv (key : string) (cases cases' : list value) :
  update_loop key status outcomeNote now cases = Ok (Some cases') ->
  exists pre d post h,
    first_match key cases pre d post
    /\ history_of d = Some h
    /\ cases' = pre ++ VDict (updated status outcomeNote now h d) :: post.
Proof.
  revert cases'.
  induction cases as [ | c rest IH]; intros cases'; cbn [update_loop];
    [discriminate | ].
  destruct (name_matches key c) as [[ | ] | e] eqn:Hc;
    cbn [bind Monad_result]; [ | | discriminate].
  - destruct (mutate_case status outcomeNote now c) as [c' | e] eqn:Hmut;
      cbn; [ | discriminate].
    intros [= <-].
    destruct (mutate_case_inv _ _ Hmut) as (d & h & -> & Hh & ->).
    exists [], d, rest, h. repeat split; auto.
  - destruct (update_loop key status outcomeNote now rest) as [[r | ] | e];
      cbn; try discriminate.
    intros [= <-].
    destruct (IH r eq_refl) as (pre & d & post & h & (-> & Hpre & Hm) & Hh & ->).
    exists (c :: pre), d, post, h. repeat split; auto.
Qed.

End Mutation.

Lemma saved_not_not_found (path : string) : saved path <> not_found.
Proof. discriminate. Qed.

(** [update_case] in terms of its loop and of the write. *)
Lemma update_case_run (path now : string) (fault : write_fault)
  (u s n : string) (w : world) :
  update_case path now fault u s n w
  = match update_loop (normalize u) s n now (stored_cases w) with
    | Ok (Some cases') => (Ok (saved path), snd (_write_db fault cases' w))
    | Ok None => (Ok not_found, w)
    | Raise e => (Raise e, w)
    end.
Proof.
  unfold update_case. rewrite bind_M_run, read_db_run.
  rewrite bind_M_run. unfold lift.
  destruct (update_loop (normalize u) s n now (stored_cases w))
    as [[cases' | ] | e]; try reflexivity.
  destruct fault; reflexivity.
Qed.

(* ------------------------------------------------------------------------- *)
(** ** Update *)
(* ------------------------------------------------------------------------- *)

(** C4. When the store splits at a first case matching [u] (whose history is
    a sequence [h], empty if the field is missing), [update_case u s n]
    returns ["saved:"] followed by the path of the store and hands
    [_write_db] the same sequence with that one case replaced, the cases
    before and after it as they were, which a write without fault persists.
    In the replaced case the status is [s], the history is [h] followed by
    the one entry [{"timestamp": now, "note": n}], and the entries under all
    other keys are the same, in the same order. *)
Theorem update_case_saved_effect (path now : string) (fault : write_fault)
  (u s n : string) (w : world) (pre : list value) (d : Dict.t)
  (post h : list value) :
  first_match (normalize u) (stored_cases w) pre d post ->
  history_of d = Some h ->
  update_case path now fault u s n w
  = (Ok ("saved:" ++ path)%string,
     snd (_write_db fault (pre ++ VDict (updated s n now h d) :: post) w))
  /\ snd (_write_db NoFault (pre ++ VDict (updated s n now h d) :: post) w)
     = {| db_file :=
            Document (VList (pre ++ VDict (updated s n now h d) :: post));
          tmp_file := Absent |}
  /\ Dict.get "status" (updated s n now h d) = Some (VStr s)
  /\ Dict.get "history" (updated s n now h d)
     = Some (VList (h ++ [VDict [("timestamp", VStr now); ("note", VStr n)]]))
  /\ Dict.others "status" "history" (updated s n now h d)
     = Dict.others "status" "history" d.
Proof.
  intros Hfm Hh.
  rewrite update_case_run.
  rewrite (update_loop_first_match s n now _ _ _ _ _ _ Hfm Hh).
  repeat split.
  - apply updated_status.
  - apply updated_history.
  - apply updated_others.
Qed.

Lemma update_case_saved_effect_witness :
  update_case Scenario.path "2025-11-27T10:00:00" NoFault
    " ALICE" "confirmed_safe" "ok" Race.w3
  = (Ok "saved:/srv/backend/fraud_cases.json",
     {| db_file :=
          Document (VList [Race.bob;
                           VDict [("userName", VStr "alice");
                                  ("securityAnswer", VStr "blue");
                                  ("status", VStr "confirmed_safe");
                                  ("history",
                                   VList [VDict [("timestamp",
                                                  VStr "2025-11-27T10:00:00");
                                                 ("note", VStr "ok")]])];
                           VDict Scenario.carol]);
        tmp_file := Absent |}).
Proof.
  apply (proj1 (update_case_saved_effect Scenario.path "2025-11-27T10:00:00"
                  NoFault " ALICE" "confirmed_safe" "ok" Race.w3
                  [Race.bob]
                  [("userName", VStr "alice"); ("securityAnswer", VStr "blue");
                   ("status", VStr "pending"); ("history", VList [])]
                  [VDict Scenario.carol] []
                  ltac:(repeat split; repeat constructor)
                  ltac:(reflexivity))).
Defined.

(** C5. When every stored case is scanned and none matches [u],
    [update_case u s n] returns the not-found outcome, which differs from
    every saved outcome, and both files are as they were. *)
Theorem update_case_not_found (path now : string) (fault : write_fault)
  (u s n : string) (w : world) :
  Forall (fun c => name_matches (normalize u) c = Ok false) (stored_cases w) ->
  update_case path now fault u s n w = (Ok "error:not_found", w)
  /\ (forall p, "error:not_found" <> saved p).
Proof.
  intros Hno. split.
  - rewrite update_case_run. now rewrite (update_loop_no_match s n now _ _ Hno).
  - intros p. discriminate.
Qed.

Lemma update_case_not_found_witness :
  update_case Scenario.path "2025-11-27T10:00:00" NoFault "bob" "x" "y"
    Scenario.w0
  = (Ok "error:not_found", Scenario.w0)
  /\ (forall p, "error:not_found" <> saved p).
Proof.
  apply (update_case_not_found Scenario.path "2025-11-27T10:00:00" NoFault
           "bob" "x" "y" Scenario.w0).
  repeat constructor.
Defined.

(** C7. When the write fails (on opening the temporary file, on
    serialising, or on the replace), [_write_db] still returns normally and
    the document at [DB_PATH] is the one from before; an [update_case] whose
    identity matched a case still returns the saved outcome, and a later
    read yields the sequence from before the update. *)
Theorem write_failure_keeps_document (path now : string) (fault : write_fault)
  (u s n : string) (w : world) :
  fault <> NoFault ->
  (forall data, exists w',
      _write_db fault data w = (Ok tt, w') /\ db_file w' = db_file w)
  /\ (forall pre d post h,
        first_match (normalize u) (stored_cases w) pre d post ->
        history_of d = Some h ->
        exists w',
          update_case path now fault u s n w = (Ok (saved path), w')
          /\ db_file w' = db_file w
          /\ _read_db w' = (Ok (stored_cases w), w')).
Proof.
  intros Hfault. split.
  - intros data.
    destruct (write_db_run fault data w) as (w' & Hrun & Hdb). eauto.
  - intros pre d post h Hfm Hh.
    rewrite update_case_run.
    rewrite (update_loop_first_match s n now _ _ _ _ _ _ Hfm Hh).
    destruct (write_db_run fault
                (pre ++ VDict (updated s n now h d) :: post) w)
      as (w' & Hrun & Hdb).
    rewrite Hrun. exists w'. cbn [snd].
    specialize (Hdb Hfault). repeat split; [exact Hdb | ].
    rewrite read_db_run. unfold stored_cases. now rewrite Hdb.
Qed.

Lemma write_failure_keeps_document_witness :
  exists w',
    update_case Scenario.path "2025-11-27T10:00:00" FailReplace
      "alice" "confirmed_safe" "ok" Scenario.w0
    = (Ok (saved Scenario.path), w')
    /\ db_file w' = db_file Scenario.w0
    /\ _read_db w' = (Ok (stored_cases Scenario.w0), w').
Proof.
  apply (proj2 (write_failure_keeps_document Scenario.path
                  "2025-11-27T10:00:00" FailReplace
                  "alice" "confirmed_safe" "ok" Scenario.w0 ltac:(discriminate))
           []
           [("userName", VStr "alice"); ("securityAnswer", VStr "blue");
            ("status", VStr "pending"); ("history", VList [])] [] []).
  - repeat split. constructor.
  - reflexivity.
Defined.

(** C8. When the store splits at a first case matching [u], two calls of
    [update_case u s n] in sequence, both written without fault, both return
    the saved outcome; afterwards the matched case has status [s] and its
    history is the old one followed by two entries, one per call. *)
Theorem update_case_twice (path now1 now2 u s n : string) (w : world)
  (pre : list value) (d : Dict.t) (post h : list value) :
  first_match (normalize u) (stored_cases w) pre d post ->
  history_of d = Some h ->
  fst (update_case path now1 NoFault u s n w) = Ok (saved path)
  /\ fst (update_case path now2 NoFault u s n
            (snd (update_case path now1 NoFault u s n w))) = Ok (saved path)
  /\ exists d2,
       snd (update_case path now2 NoFault u s n
              (snd (update_case path now1 NoFault u s n w)))
       = {| db_file := Document (VList (pre ++ VDict d2 :: post));
            tmp_file := Absent |}
       /\ Dict.get "status" d2 = Some (VStr s)
       /\ Dict.get "history" d2
          = Some (VList (h ++ [history_entry now1 n; history_entry now2 n])).
Proof.
  intros Hfm Hh.
  rewrite (update_case_run path now1).
  rewrite (update_loop_first_match s n now1 _ _ _ _ _ _ Hfm Hh).
  rewrite write_db_no_fault. cbn [fst snd].
  set (d1 := updated s n now1 h d).
  assert (Hfm1 : first_match (normalize u) (pre ++ VDict d1 :: post) pre d1 post).
  { destruct Hfm as (_ & Hpre & Hm). repeat split; [exact Hpre | ].
    subst d1. now rewrite updated_name_matches. }
  assert (Hh1 : history_of d1 = Some (h ++ [history_entry now1 n]))
    by apply updated_history_of.
  rewrite (update_case_run path now2). unfold stored_cases at 1 2. cbn [db_file].
  rewrite (update_loop_first_match s n now2 _ _ _ _ _ _ Hfm1 Hh1).
  rewrite write_db_no_fault. cbn [fst snd].
  repeat split. eexists. split; [reflexivity | ]. split.
  - apply updated_status.
  - rewrite updated_history. now rewrite <- app_assoc.
Qed.

Lemma update_case_twice_witness :
  fst (update_case Scenario.path "2025-11-27T10:00:00" NoFault
         "alice" "confirmed_safe" "ok" Scenario.w0) = Ok (saved Scenario.path)
  /\ fst (update_case Scenario.path "2025-11-27T10:00:05" NoFault
            "alice" "confirmed_safe" "ok"
            (snd (update_case Scenario.path "2025-11-27T10:00:00" NoFault
                    "alice" "confirmed_safe" "ok" Scenario.w0)))
     = Ok (saved Scenario.path)
  /\ exists d2,
    snd (update_case Scenario.path "2025-11-27T10:00:05" NoFault
           "alice" "confirmed_safe" "ok"
           (snd (update_case Scenario.path "2025-11-27T10:00:00" NoFault
                   "alice" "confirmed_safe" "ok" Scenario.w0)))
    = {| db_file := Document (VList ([] ++ VDict d2 :: []));
         tmp_file := Absent |}
    /\ Dict.get "status" d2 = Some (VStr "confirmed_safe")
    /\ Dict.get "history" d2
       = Some (VList ([] ++ [history_entry "2025-11-27T10:00:00" "ok";
                             history_entry "2025-11-27T10:00:05" "ok"])).
Proof.
  apply (update_case_twice Scenario.path "2025-11-27T10:00:00"
           "2025-11-27T10:00:05" "alice" "confirmed_safe" "ok" Scenario.w0 []
           [("userName", VStr "alice"); ("securityAnswer", VStr "blue");
            ("status", VStr "pending"); ("history", VList [])] [] []).
  - repeat split. constructor.
  - reflexivity.
Defined.

(** C10. A matched case without a [history] field does not make
    [update_case] fail: the loop reaches [_write_db] with the history of that
    case being the one entry [{"timestamp": now, "note": n}], and the call
    returns the saved outcome.  And after every saved outcome the store had a
    first match, and in the sequence the loop has mutated and hands to
    [_write_db] (which a write without fault persists) the history of that
    case is a sequence ending in the entry just appended. *)
Theorem update_case_history_initialised (path now : string)
  (fault : write_fault) (u s n : string) (w : world) :
  (forall pre d post,
      first_match (normalize u) (stored_cases w) pre d post ->
      Dict.get "history" d = None ->
      update_loop (normalize u) s n now (stored_cases w)
      = Ok (Some (pre ++ VDict (updated s n now [] d) :: post))
      /\ update_case path now fault u s n w
         = (Ok ("saved:" ++ path)%string,
            snd (_write_db fault
                   (pre ++ VDict (updated s n now [] d) :: post) w))
      /\ Dict.get "history" (updated s n now [] d)
         = Some (VList [VDict [("timestamp", VStr now); ("note", VStr n)]]))
  /\ (fst (update_case path now fault u s n w) = Ok ("saved:" ++ path)%string ->
      exists pre d post d' h,
        first_match (normalize u) (stored_cases w) pre d post
        /\ update_loop (normalize u) s n now (stored_cases w)
           = Ok (Some (pre ++ VDict d' :: post))
        /\ Dict.get "history" d'
           = Some (VList (h ++ [VDict [("timestamp", VStr now);
                                       ("note", VStr n)]]))
        /\ snd (update_case path now fault u s n w)
           = snd (_write_db fault (pre ++ VDict d' :: post) w)
        /\ (fault = NoFault ->
            stored_cases (snd (update_case path now fault u s n w))
            = pre ++ VDict d' :: post)).
Proof.
  split.
  - intros pre d post Hfm Hnone.
    assert (Hh : history_of d = Some []) by (unfold history_of; now rewrite Hnone).
    rewrite update_case_run.
    rewrite (update_loop_first_match s n now _ _ _ _ _ _ Hfm Hh).
    repeat split. apply updated_history.
  - rewrite update_case_run.
    destruct (update_loop (normalize u) s n now (stored_cases w))
      as [[cases' | ] | e] eqn:Hloop; cbn [fst snd]; intros Hret.
    + destruct (update_loop_some_inv _ _ _ _ _ _ Hloop)
        as (pre & d & post & h & Hfm & Hh & ->).
      exists pre, d, post, (updated s n now h d), h.
      split; [exact Hfm | ]. split; [reflexivity | ].
      split; [apply updated_history | ]. split; [reflexivity | ].
      intros ->. now rewrite write_db_no_fault.
    + apply Ok_inj in Hret. discriminate Hret.
    + discriminate.
Qed.

Lemma update_case_history_initialised_witness :
  update_case Scenario.path "2025-11-27T10:00:00" NoFault
    "carol" "confirmed_fraud" "card blocked" Race.w3
  = (Ok "saved:/srv/backend/fraud_cases.json",
     {| db_file :=
          Document (VList [Race.bob; Scenario.alice;
                           VDict [("userName", VStr "carol");
                                  ("securityAnswer", VNone);
                                  ("status", VStr "confirmed_fraud");
                                  ("history",
                                   VList [VDict [("timestamp",
                                                  VStr "2025-11-27T10:00:00");
                                                 ("note",
                                                  VStr "card blocked")]])]]);
        tmp_file := Absent |}).
Proof.
  apply (proj1 (proj2 (proj1 (update_case_history_initialised Scenario.path
                  "2025-11-27T10:00:00" NoFault
                  "carol" "confirmed_fraud" "card blocked" Race.w3)
           [Race.bob; Scenario.alice] Scenario.carol []
           ltac:(repeat split; repeat constructor)
           ltac:(reflexivity)))).
Defined.

(* ------------------------------------------------------------------------- *)
(** ** Normalisation of identities and answers *)
(* ------------------------------------------------------------------------- *)

Module PyStrFacts.

Lemma lower_char_idem (c : ascii) : lower_char (lower_char c) = lower_char c.
Proof.
  destruct c as [[] [] [] [] [] [] [] []]; reflexivity.
Qed.

Lemma is_space_lower_char (c : ascii) : is_space (lower_char c) = is_space c.
Proof.
  destruct c as [[] [] [] [] [] [] [] []]; reflexivity.
Qed.

Lemma str_lower_idem (s : string) : str_lower (str_lower s) = str_lower s.
Proof.
  induction s as [ | c s IH]; cbn; [reflexivity | ].
  now rewrite lower_char_idem, IH.
Qed.

Lemma lstrip_lower (s : string) :
  str_lstrip (str_lower s) = str_lower (str_lstrip s).
Proof.
  induction s as [ | c s IH]; cbn; [reflexivity | ].
  rewrite is_space_lower_char. now destruct (is_space c).
Qed.

Lemma rstrip_lower (s : string) :
  str_rstrip (str_lower s) = str_lower (str_rstrip s).
Proof.
  induction s as [ | c s IH]; cbn [str_lower str_rstrip]; [reflexivity | ].
  rewrite IH, is_space_lower_char.
  destruct (str_rstrip s); cbn [str_lower]; [now destruct (is_space c) | reflexivity].
Qed.

Lemma strip_lower (s : string) :
  str_strip (str_lower s) = str_lower (str_strip s).
Proof. unfold str_strip. now rewrite lstrip_lower, rstrip_lower. Qed.

(** The result of [lstrip] is empty or starts with a character that is no
    whitespace. *)
Lemma lstrip_head (s : string) :
  str_lstrip s = EmptyString
  \/ exists c t, str_lstrip s = String c t /\ is_space c = false.
Proof.
  induction s as [ | c s IH]; cbn; [now left | ].
  destruct (is_space c) eqn:E; [exact IH | right; eauto].
Qed.

Lemma rstrip_cons_nonspace (c : ascii) (t : string) :
  is_space c = false -> str_rstrip (String c t) = String c (str_rstrip t).
Proof.
  intros E. cbn [str_rstrip]. rewrite E. now destruct (str_rstrip t).
Qed.

Lemma rstrip_idem (s : string) : str_rstrip (str_rstrip s) = str_rstrip s.
Proof.
  induction s as [ | c s IH]; cbn [str_rstrip]; [reflexivity | ].
  destruct (str_rstrip s) as [ | c' r] eqn:E.
  - destruct (is_space c) eqn:Ec; [reflexivity | ].
    cbn [str_rstrip]. now rewrite Ec.
  - cbn [str_rstrip] in *. now rewrite IH.
Qed.

Lemma strip_idem (s : string) : str_strip (str_strip s) = str_strip s.
Proof.
  unfold str_strip.
  destruct (lstrip_head s) as [-> | (c & t & -> & Ec)]; [reflexivity | ].
  rewrite (rstrip_cons_nonspace c t Ec). cbn [str_lstrip]. rewrite Ec.
  rewrite (rstrip_cons_nonspace c _ Ec). now rewrite rstrip_idem.
Qed.

Lemma lstrip_all_space (l : string) :
  all_space l = true -> str_lstrip l = EmptyString.
Proof.
  induction l as [ | c l IH]; cbn; [reflexivity | ].
  destruct (is_space c); [exact IH | discriminate].
Qed.

Lemma rstrip_all_space (r : string) :
  all_space r = true -> str_rstrip r = EmptyString.
Proof.
  induction r as [ | c r IH]; cbn; [reflexivity | ].
  destruct (is_space c); [ | discriminate].
  intros H. now rewrite (IH H).
Qed.

Lemma lstrip_app_left (l s : string) :
  all_space l = true -> str_lstrip (l ++ s) = str_lstrip s.
Proof.
  induction l as [ | c l IH]; cbn; [reflexivity | ].
  destruct (is_space c); [exact IH | discriminate].
Qed.

Lemma rstrip_app_right (s r : string) :
  all_space r = true -> str_rstrip (s ++ r) = str_rstrip s.
Proof.
  intros H. induction s as [ | c s IH]; cbn [String.append str_rstrip].
  - now apply rstrip_all_space.
  - now rewrite IH.
Qed.

Lemma strip_app_right (u r : string) :
  all_space r = true -> str_strip (u ++ r) = str_strip u.
Proof.
  intros H. unfold str_strip.
  induction u as [ | c u IH]; cbn [String.append str_lstrip].
  - now rewrite (lstrip_all_space r H).
  - destruct (is_space c); [exact IH | ].
    now apply (rstrip_app_right (String c u)).
Qed.

Lemma strip_padding (l u r : string) :
  all_space l = true -> all_space r = true ->
  str_strip (l ++ u ++ r) = str_strip u.
Proof.
  intros Hl Hr. unfold str_strip at 1. rewrite (lstrip_app_left l _ Hl).
  now apply strip_app_right.
Qed.

End PyStrFacts.

(** X1. Normalising is idempotent: an identity or answer that is already
    trimmed and lowercased is its own key. *)
Theorem normalize_idempotent (s : string) :
  normalize (normalize s) = normalize s.
Proof.
  unfold normalize.
  rewrite PyStrFacts.strip_lower, PyStrFacts.strip_idem.
  apply PyStrFacts.str_lower_idem.
Qed.

Lemma normalize_padding_case (l u r u' : string) :
  all_space l = true ->
  all_space r = true ->
  str_lower u = str_lower u' ->
  normalize (l ++ u ++ r) = normalize u'.
Proof.
  intros Hl Hr Hcase. unfold normalize.
  rewrite (PyStrFacts.strip_padding l u r Hl Hr).
  rewrite <- !PyStrFacts.strip_lower. now rewrite Hcase.
Qed.

(** X2. Whitespace around an argument and the case of its letters do not
    matter to any tool: with the identity padded by whitespace on both sides
    and its letters in another case, and the answer likewise, [load_case],
    [verify_answer] and [update_case] return the same and leave the same
    files. *)
Theorem tools_ignore_padding_and_case (path now : string)
  (fault : write_fault) (s n : string) (w : world)
  (l u r u' la a ra a' : string) :
  all_space l = true -> all_space r = true -> str_lower u = str_lower u' ->
  all_space la = true -> all_space ra = true -> str_lower a = str_lower a' ->
  load_case (l ++ u ++ r) w = load_case u' w
  /\ verify_answer (l ++ u ++ r) (la ++ a ++ ra) w = verify_answer u' a' w
  /\ update_case path now fault (l ++ u ++ r) s n w
     = update_case path now fault u' s n w.
Proof.
  intros Hl Hr Hu Hla Hra Ha.
  pose proof (normalize_padding_case l u r u' Hl Hr Hu) as Hkey.
  pose proof (normalize_padding_case la a ra a' Hla Hra Ha) as Hans.
  assert (Hload : load_case (l ++ u ++ r) w = load_case u' w)
    by now rewrite !load_case_run, Hkey.
  repeat split.
  - exact Hload.
  - unfold verify_answer. now rewrite !bind_M_run, Hload, Hans.
  - now rewrite !update_case_run, Hkey.
Qed.

Lemma tools_ignore_padding_and_case_witness :
  load_case ("  " ++ "ALICE" ++ " ") Scenario.w0 = load_case "Alice" Scenario.w0
  /\ verify_answer ("  " ++ "ALICE" ++ " ") (" " ++ "BLUE" ++ "  ") Scenario.w0
     = verify_answer "Alice" "Blue" Scenario.w0
  /\ update_case Scenario.path "2025-11-27T10:00:00" NoFault
       ("  " ++ "ALICE" ++ " ") "confirmed_safe" "ok" Scenario.w0
     = update_case Scenario.path "2025-11-27T10:00:00" NoFault
         "Alice" "confirmed_safe" "ok" Scenario.w0.
Proof.
  apply (tools_ignore_padding_and_case Scenario.path "2025-11-27T10:00:00"
           NoFault "confirmed_safe" "ok" Scenario.w0
           "  " "ALICE" " " "Alice" " " "BLUE" "  " "Blue"); reflexivity.
Defined.

(* ------------------------------------------------------------------------- *)
(** ** Effects and outcomes of the tools *)
(* ------------------------------------------------------------------------- *)

Lemma name_matches_raise (key : string) (c : value) (e : exn) :
  name_matches key c = Raise e -> e = AttributeError.
Proof.
  destruct c as [ | | | | | | d]; cbn; try (now intros [= <-]).
  destruct (Dict.get "userName" d) as [[ | | | | n | | ] | ]; cbn;
    try discriminate; now intros [= <-].
Qed.

Lemma name_matches_dict (key : string) (c : value) (b : bool) :
  name_matches key c = Ok b -> exists d, c = VDict d.
Proof. destruct c; cbn; try discriminate. eauto. Qed.

Lemma load_loop_raise (key : string) (cases : list value) (e : exn) :
  load_loop key cases = Raise e -> e = AttributeError.
Proof.
  induction cases as [ | c rest IH]; cbn [load_loop]; [discriminate | ].
  destruct (name_matches key c) as [[ | ] | e'] eqn:Hc; cbn [bind Monad_result].
  - discriminate.
  - exact IH.
  - intros [= <-]. eapply name_matches_raise; exact Hc.
Qed.

Lemma mutate_case_dict_raise (s n now : string) (d : Dict.t) (e : exn) :
  mutate_case s n now (VDict d) = Raise e ->
  e = AttributeError /\ history_of d = None.
Proof.
  cbn [mutate_case]. rewrite get_history_after_status. unfold history_of.
  destruct (Dict.get "history" d) as [[ | | | | | l | ] | ]; cbn;
    try discriminate; now intros [= <-].
Qed.

Lemma update_loop_raise (key s n now : string) (cases : list value) (e : exn) :
  update_loop key s n now cases = Raise e -> e = AttributeError.
Proof.
  induction cases as [ | c rest IH]; cbn [update_loop]; [discriminate | ].
  destruct (name_matches key c) as [[ | ] | e'] eqn:Hc; cbn [bind Monad_result].
  - destruct (name_matches_dict _ _ _ Hc) as [d ->].
    destruct (mutate_case s n now (VDict d)) as [c' | e'] eqn:Hmut;
      cbn [bind Monad_result]; [discriminate | ].
    intros [= <-]. now apply mutate_case_dict_raise in Hmut.
  - destruct (update_loop key s n now rest) as [r | e']; cbn [bind Monad_result];
      [discriminate | ].
    intros [= <-]. now apply IH.
  - intros [= <-]. eapply name_matches_raise; exact Hc.
Qed.

(** X3. [load_case] and [verify_answer] never write: whatever the store holds
    and whatever they return or raise, both files are as before; and the only
    exception that leaves them is [AttributeError]. *)
Theorem lookup_and_verify_effects (u a : string) (w : world) :
  snd (load_case u w) = w
  /\ snd (verify_answer u a w) = w
  /\ ((exists r, fst (load_case u w) = Ok r)
      \/ fst (load_case u w) = Raise AttributeError)
  /\ ((exists b, fst (verify_answer u a w) = Ok b)
      \/ fst (verify_answer u a w) = Raise AttributeError).
Proof.
  assert (Hload : (exists r, fst (load_case u w) = Ok r)
                  \/ fst (load_case u w) = Raise AttributeError).
  { destruct (fst (load_case u w)) as [r | e] eqn:E; [left; eauto | right].
    rewrite load_case_run in E. cbn [fst] in E.
    destruct (is_empty (normalize u)); [discriminate | ].
    now rewrite (load_loop_raise _ _ _ E). }
  unfold verify_answer. rewrite bind_M_run.
  destruct (load_case u w) as [r w'] eqn:Hrun.
  assert (Hw : w' = w) by (rewrite load_case_run in Hrun; now injection Hrun).
  subst w'. cbn [fst snd] in *.
  destruct r as [[c | ] | e].
  - destruct (truthy c); cbn [negb]; unfold lift; cbn [fst snd].
    + repeat split; try exact Hload.
      destruct c as [ | | | | | | d]; cbn; try (now right).
      destruct (Dict.get "securityAnswer" d) as [v | ]; cbn;
        [ | left; eauto].
      destruct (or_empty v); cbn; try (now right). left; eauto.
    + repeat split; try exact Hload. left. now exists false.
  - repeat split; try exact Hload. left. now exists false.
  - repeat split; try exact Hload. right.
    destruct Hload as [[r Hr] | Hr]; [discriminate | ].
    injection Hr as ->. reflexivity.
Qed.

(** X4. The write is all or nothing for a reader: [_write_db] returns
    normally under every fault, and afterwards [DB_PATH] holds either the
    document from before or the complete new one, so a read yields the old
    sequence or exactly the sequence written. *)
Theorem write_db_atomic (fault : write_fault) (data : list value) (w : world) :
  fst (_write_db fault data w) = Ok tt
  /\ (db_file (snd (_write_db fault data w)) = db_file w
      \/ db_file (snd (_write_db fault data w)) = Document (VList data))
  /\ (fst (_read_db (snd (_write_db fault data w))) = fst (_read_db w)
      \/ fst (_read_db (snd (_write_db fault data w))) = Ok data).
Proof.
  rewrite !read_db_run. cbn [fst].
  destruct fault; cbn; repeat split; auto.
Qed.

(** X5. [update_case] has three outcomes.  It returns the not-found outcome
    or raises [AttributeError], and then neither file has changed; or it
    returns the saved outcome, and then the only effect is one [_write_db]. *)
Theorem update_case_outcomes (path now : string) (fault : write_fault)
  (u s n : string) (w : world) :
  update_case path now fault u s n w = (Ok not_found, w)
  \/ update_case path now fault u s n w = (Raise AttributeError, w)
  \/ exists cases',
       update_case path now fault u s n w
       = (Ok (saved path), snd (_write_db fault cases' w)).
Proof.
  rewrite update_case_run.
  destruct (update_loop (normalize u) s n now (stored_cases w))
    as [[cases' | ] | e] eqn:Hloop.
  - right; right. eauto.
  - now left.
  - right; left. now rewrite (update_loop_raise _ _ _ _ _ _ Hloop).
Qed.

(* ------------------------------------------------------------------------- *)
(** ** What an update keeps *)
(* ------------------------------------------------------------------------- *)

Lemma Forall2_same {A} (R : A -> A -> Prop) (l : list A) :
  (forall x, R x x) -> Forall2 R l l.
Proof. intros HR. induction l; constructor; auto. Qed.

Lemma kept_or_updated_refl (s n now : string) (c : value) :
  kept_or_updated s n now c c.
Proof. now left. Qed.

(** The store after any call of [update_case], case by case. *)
Lemma update_case_cases (path now : string) (fault : write_fault)
  (u s n : string) (w : world) :
  Forall2 (kept_or_updated s n now)
    (stored_cases w)
    (stored_cases (snd (update_case path now fault u s n w))).
Proof.
  rewrite update_case_run.
  destruct (update_loop (normalize u) s n now (stored_cases w))
    as [[cases' | ] | e] eqn:Hloop; cbn [snd];
    try (apply Forall2_same; apply kept_or_updated_refl).
  destruct (update_loop_some_inv _ _ _ _ _ _ Hloop)
    as (pre & d & post & h & (Hsplit & _ & _) & Hh & ->).
  destruct (write_db_run fault
              (pre ++ VDict (updated s n now h d) :: post) w)
    as (w' & Hrun & Hdb).
  rewrite Hrun. cbn [snd].
  destruct fault;
    try (unfold stored_cases at 2; rewrite Hdb by discriminate;
         apply Forall2_same; apply kept_or_updated_refl).
  rewrite write_db_no_fault in Hrun. injection Hrun as <-.
  unfold stored_cases at 2. cbn [db_file]. rewrite Hsplit.
  apply Forall2_app; [apply Forall2_same; apply kept_or_updated_refl | ].
  constructor; [ | apply Forall2_same; apply kept_or_updated_refl].
  right. eauto.
Qed.

(** X6. No call of [update_case] adds, removes or reorders cases, and the
    history is append-only: whatever the arguments, the fault and the store,
    the store afterwards has the cases of before, position by position, each
    either unchanged or with the one new entry at the end of its history and
    all entries other than status and history identical. *)
Theorem update_case_keeps_cases (path now : string) (fault : write_fault)
  (u s n : string) (w : world) :
  Forall2 (fun c c' => c' = c \/ history_appended now n c c')
    (stored_cases w)
    (stored_cases (snd (update_case path now fault u s n w)))
  /\ length (stored_cases (snd (update_case path now fault u s n w)))
     = length (stored_cases w).
Proof.
  pose proof (update_case_cases path now fault u s n w) as H.
  split; [ | symmetry; eapply Forall2_length; exact H].
  eapply Forall2_impl; [ | exact H].
  intros c c' [-> | (d & h & -> & Hh & ->)]; [now left | right].
  exists d, (updated s n now h d), h. repeat split.
  - apply updated_others.
  - exact Hh.
  - apply updated_history_of.
Qed.

(** The two loops look at a case through [name_matches] only, which the
    mutation does not change. *)
Lemma kept_or_updated_name_matches (s n now key : string) (c c' : value) :
  kept_or_updated s n now c c' -> name_matches key c' = name_matches key c.
Proof.
  intros [-> | (d & h & -> & _ & ->)]; [reflexivity | ].
  apply updated_name_matches.
Qed.

Lemma load_loop_kept_or_updated (s n now key : string) (cs cs' : list value) :
  Forall2 (kept_or_updated s n now) cs cs' ->
  match load_loop key cs, load_loop key cs' with
  | Ok None, Ok None => True
  | Ok (Some c), Ok (Some c') => kept_or_updated s n now c c'
  | Raise e, Raise e' => e = e'
  | _, _ => False
  end.
Proof.
  induction 1 as [ | c c' cs cs' Hc _ IH]; cbn [load_loop]; [exact I | ].
  rewrite (kept_or_updated_name_matches s n now key c c' Hc).
  destruct (name_matches key c) as [[ | ] | e]; cbn [bind Monad_result];
    [exact Hc | exact IH | reflexivity].
Qed.

(** X7. After an update that is written, the lookup shows it: for an
    identity that is not blank, [load_case] on the store left by a saved
    [update_case] without write fault returns the matched case with the new
    status and the history extended by the new entry. *)
Theorem update_then_load (path now u s n : string) (w : world)
  (pre : list value) (d : Dict.t) (post h : list value) :
  is_empty (normalize u) = false ->
  first_match (normalize u) (stored_cases w) pre d post ->
  history_of d = Some h ->
  exists d',
    fst (load_case u (snd (update_case path now NoFault u s n w)))
    = Ok (Some (VDict d'))
    /\ Dict.get "status" d' = Some (VStr s)
    /\ Dict.get "history" d' = Some (VList (h ++ [history_entry now n]))
    /\ Dict.others "status" "history" d' = Dict.others "status" "history" d.
Proof.
  intros Hkey Hfm Hh. exists (updated s n now h d).
  rewrite update_case_run.
  rewrite (update_loop_first_match s n now _ _ _ _ _ _ Hfm Hh).
  rewrite write_db_no_fault. cbn [snd].
  rewrite load_case_run, Hkey. cbn [fst].
  unfold stored_cases. cbn [db_file].
  split; [ | split; [apply updated_status | split;
                     [apply updated_history | apply updated_others]]].
  apply load_loop_first_match with (pre := pre) (post := post).
  destruct Hfm as (_ & Hpre & Hm). repeat split; [exact Hpre | ].
  now rewrite updated_name_matches.
Qed.

Lemma update_then_load_witness :
  exists d',
    fst (load_case "Alice"
           (snd (update_case Scenario.path "2025-11-27T10:00:00" NoFault
                   "Alice" "confirmed_safe" "ok" Scenario.w0)))
    = Ok (Some (VDict d'))
    /\ Dict.get "status" d' = Some (VStr "confirmed_safe")
    /\ Dict.get "history" d'
       = Some (VList ([] ++ [history_entry "2025-11-27T10:00:00" "ok"]))
    /\ Dict.others "status" "history" d'
       = Dict.others "status" "history"
           [("userName", VStr "alice"); ("securityAnswer", VStr "blue");
            ("status", VStr "pending"); ("history", VList [])].
Proof.
  apply (update_then_load Scenario.path "2025-11-27T10:00:00"
           "Alice" "confirmed_safe" "ok" Scenario.w0 []
           [("userName", VStr "alice"); ("securityAnswer", VStr "blue");
            ("status", VStr "pending"); ("history", VList [])] [] []).
  - reflexivity.
  - repeat split. constructor.
  - reflexivity.
Defined.

(** X8. An update never changes the outcome of a verification: for every
    call of [update_case], whatever it matched and however its write went,
    [verify_answer u a] gives on the store afterwards what it gave before,
    for every identity [u] and answer [a]. *)
Theorem update_keeps_verification (path now : string) (fault : write_fault)
  (u' s n u a : string) (w : world) :
  fst (verify_answer u a (snd (update_case path now fault u' s n w)))
  = fst (verify_answer u a w).
Proof.
  pose proof (update_case_cases path now fault u' s n w) as Hrel.
  set (w1 := snd (update_case path now fault u' s n w)) in *.
  unfold verify_answer. rewrite !bind_M_run, !load_case_run.
  destruct (is_empty (normalize u)) eqn:Hkey; [reflexivity | ].
  pose proof (load_loop_kept_or_updated s n now (normalize u) _ _ Hrel) as Hl.
  destruct (load_loop (normalize u) (stored_cases w)) as [[c | ] | e] eqn:E;
    destruct (load_loop (normalize u) (stored_cases w1)) as [[c1 | ] | e1] eqn:E1;
    try contradiction; try reflexivity; [ | now subst e1].
  rewrite (name_matches_truthy _ _ Hkey (load_loop_some _ _ _ E)).
  rewrite (name_matches_truthy _ _ Hkey (load_loop_some _ _ _ E1)).
  cbn [negb]. unfold lift. cbn [fst].
  destruct Hl as [-> | (d & h & -> & _ & ->)]; [reflexivity | ].
  unfold value_get. now rewrite updated_get_other by discriminate.
Qed.

Lemma update_loop_none_iff_load_loop (key s n now : string)
  (cases : list value) :
  update_loop key s n now cases = Ok None <-> load_loop key cases = Ok None.
Proof.
  induction cases as [ | c rest IH]; cbn [update_loop load_loop];
    [tauto | ].
  destruct (name_matches key c) as [[ | ] | e]; cbn [bind Monad_result].
  - split; [ | discriminate].
    destruct (mutate_case s n now c); cbn; discriminate.
  - rewrite <- IH.
    destruct (update_loop key s n now rest) as [[r | ] | e]; cbn;
      split; intros H; try discriminate; reflexivity.
  - split; discriminate.
Qed.

(** X9. For an identity that is not blank the two scans agree on absence:
    [update_case] returns the not-found outcome exactly when [load_case]
    returns no case. *)
Theorem update_not_found_iff_load_none (path now : string)
  (fault : write_fault) (u s n : string) (w : world) :
  is_empty (normalize u) = false ->
  fst (update_case path now fault u s n w) = Ok not_found
  <-> fst (load_case u w) = Ok None.
Proof.
  intros Hkey. rewrite update_case_run, load_case_run, Hkey. cbn [fst].
  rewrite <- (update_loop_none_iff_load_loop (normalize u) s n now).
  destruct (update_loop (normalize u) s n now (stored_cases w))
    as [[cases' | ] | e]; cbn [fst]; split; intros H;
    try discriminate; try reflexivity.
Qed.

Lemma update_not_found_iff_load_none_witness :
  fst (update_case Scenario.path "2025-11-27T10:00:00" NoFault
         "bob" "x" "y" Scenario.w0) = Ok not_found
  <-> fst (load_case "bob" Scenario.w0) = Ok None.
Proof.
  apply (update_not_found_iff_load_none Scenario.path "2025-11-27T10:00:00"
           NoFault "bob" "x" "y" Scenario.w0).
  reflexivity.
Defined.

(* ------------------------------------------------------------------------- *)
(** ** Edges: unavailable store, stray values, blank identity *)
(* ------------------------------------------------------------------------- *)

(** X10. A store that cannot be read is an empty store to every tool: when
    [_read_db] yields the empty sequence (no file, unreadable file, malformed
    text, a document that is no sequence, or an empty one), [load_case]
    returns no case, [verify_answer] returns false and [update_case] returns
    the not-found outcome, none of them raising or writing. *)
Theorem unavailable_store_is_empty (path now : string) (fault : write_fault)
  (u a s n : string) (w : world) :
  fst (_read_db w) = Ok [] ->
  load_case u w = (Ok None, w)
  /\ verify_answer u a w = (Ok false, w)
  /\ update_case path now fault u s n w = (Ok not_found, w).
Proof.
  rewrite read_db_run. cbn [fst]. intros H. apply Ok_inj in H.
  assert (Hload : load_case u w = (Ok None, w)).
  { rewrite load_case_run, H. now destruct (is_empty (normalize u)). }
  repeat split.
  - exact Hload.
  - unfold verify_answer. now rewrite bind_M_run, Hload.
  - now rewrite update_case_run, H.
Qed.

Lemma unavailable_store_is_empty_witness :
  load_case "alice" {| db_file := Malformed; tmp_file := Absent |}
  = (Ok None, {| db_file := Malformed; tmp_file := Absent |})
  /\ verify_answer "alice" "blue" {| db_file := Malformed; tmp_file := Absent |}
     = (Ok false, {| db_file := Malformed; tmp_file := Absent |})
  /\ update_case Scenario.path "2025-11-27T10:00:00" NoFault
       "alice" "confirmed_safe" "ok"
       {| db_file := Malformed; tmp_file := Absent |}
     = (Ok not_found, {| db_file := Malformed; tmp_file := Absent |}).
Proof.
  apply (unavailable_store_is_empty Scenario.path "2025-11-27T10:00:00"
           NoFault "alice" "blue" "confirmed_safe" "ok"
           {| db_file := Malformed; tmp_file := Absent |}).
  reflexivity.
Defined.

Lemma name_matches_stray (key : string) (c : value) :
  is_record c = false -> name_matches key c = Raise AttributeError.
Proof.
  destruct c as [ | | | | | | d]; cbn; try reflexivity.
  destruct (Dict.get "userName" d) as [[ | | | | n | | ] | ]; cbn;
    try discriminate; reflexivity.
Qed.

(** X11. A stored element that is no record stops the scan with an
    exception: when the scan of a non-blank identity reaches, before any
    match, an element that is not an object or whose [userName] is not a
    string, [load_case], [verify_answer] and [update_case] all raise
    [AttributeError], and nothing is written. *)
Theorem stray_element_raises (path now : string) (fault : write_fault)
  (u a s n : string) (w : world) (pre : list value) (c : value)
  (post : list value) :
  is_empty (normalize u) = false ->
  stored_cases w = pre ++ c :: post ->
  Forall (fun x => name_matches (normalize u) x = Ok false) pre ->
  is_record c = false ->
  load_case u w = (Raise AttributeError, w)
  /\ verify_answer u a w = (Raise AttributeError, w)
  /\ update_case path now fault u s n w = (Raise AttributeError, w).
Proof.
  intros Hkey Hsplit Hpre Hc.
  pose proof (name_matches_stray (normalize u) c Hc) as Hraise.
  assert (Hload : load_case u w = (Raise AttributeError, w)).
  { rewrite load_case_run, Hkey, Hsplit. f_equal.
    clear Hsplit. induction Hpre as [ | x pre Hx _ IH]; cbn [app load_loop].
    - now rewrite Hraise.
    - now rewrite Hx. }
  repeat split.
  - exact Hload.
  - unfold verify_answer. now rewrite bind_M_run, Hload.
  - rewrite update_case_run, Hsplit.
    assert (Hloop : update_loop (normalize u) s n now (pre ++ c :: post)
                    = Raise AttributeError).
    { clear Hsplit. induction Hpre as [ | x pre Hx _ IH];
        cbn [app update_loop].
      - now rewrite Hraise.
      - rewrite Hx. cbn [bind Monad_result]. now rewrite IH. }
    now rewrite Hloop.
Qed.

Lemma stray_element_raises_witness :
  load_case "alice" Edge.w_stray = (Raise AttributeError, Edge.w_stray)
  /\ verify_answer "alice" "blue" Edge.w_stray
     = (Raise AttributeError, Edge.w_stray)
  /\ update_case Scenario.path "2025-11-27T10:00:00" NoFault
       "alice" "confirmed_safe" "ok" Edge.w_stray
     = (Raise AttributeError, Edge.w_stray).
Proof.
  apply (stray_element_raises Scenario.path "2025-11-27T10:00:00" NoFault
           "alice" "blue" "confirmed_safe" "ok" Edge.w_stray
           [] (VInt 7) [Scenario.alice]).
  - reflexivity.
  - reflexivity.
  - constructor.
  - reflexivity.
Defined.

Lemma mutate_case_bad_history (s n now : string) (d : Dict.t) :
  history_of d = None ->
  mutate_case s n now (VDict d) = Raise AttributeError.
Proof.
  unfold history_of. intros Hh. cbn [mutate_case].
  rewrite get_history_after_status.
  destruct (Dict.get "history" d) as [[ | | | | | l | ] | ];
    try discriminate; reflexivity.
Qed.

(** X12. A matched record whose [history] is present but no sequence (null,
    for one) makes [update_case] raise [AttributeError] at the append; the
    call does not reach [_write_db], so the stored status is the old one. *)
Theorem update_case_history_not_a_list (path now : string)
  (fault : write_fault) (u s n : string) (w : world) (pre : list value)
  (d : Dict.t) (post : list value) :
  first_match (normalize u) (stored_cases w) pre d post ->
  history_of d = None ->
  update_case path now fault u s n w = (Raise AttributeError, w).
Proof.
  intros (Hsplit & Hpre & Hm) Hh.
  rewrite update_case_run, Hsplit.
  assert (Hloop : update_loop (normalize u) s n now (pre ++ VDict d :: post)
                  = Raise AttributeError).
  { clear Hsplit. induction Hpre as [ | x pre Hx _ IH]; cbn [app update_loop].
    - rewrite Hm. cbn [bind Monad_result].
      now rewrite (mutate_case_bad_history s n now d Hh).
    - rewrite Hx. cbn [bind Monad_result]. now rewrite IH. }
  now rewrite Hloop.
Qed.

Lemma update_case_history_not_a_list_witness :
  update_case Scenario.path "2025-11-27T10:00:00" NoFault
    "dave" "confirmed_safe" "ok" Edge.w_dave
  = (Raise AttributeError, Edge.w_dave).
Proof.
  apply (update_case_history_not_a_list Scenario.path "2025-11-27T10:00:00"
           NoFault "dave" "confirmed_safe" "ok" Edge.w_dave [] Edge.dave []).
  - repeat split. constructor.
  - reflexivity.
Defined.

(** X13. A security answer that is not a string is not compared as text: for
    a case found by the lookup, a falsy value (false, 0, an empty list or
    object) counts as the empty answer, so exactly the blank answers verify,
    and any other value makes [verify_answer] raise [AttributeError]. *)
Theorem verify_answer_not_a_string (u a : string) (w : world) (c v : value) :
  fst (load_case u w) = Ok (Some c) ->
  value_get "securityAnswer" c = Ok (Some v) ->
  (forall s, v <> VStr s) ->
  verify_answer u a w
  = (if truthy v then Raise AttributeError
     else Ok (String.eqb (normalize a) ""), w).
Proof.
  intros Hload Hsa Hv.
  destruct (load_case_some _ _ _ Hload) as [Hrun Htruthy].
  unfold verify_answer. rewrite bind_M_run, Hrun, Htruthy. cbn [negb].
  unfold lift. rewrite Hsa. cbn [bind Monad_result]. f_equal.
  unfold or_empty.
  destruct (truthy v) eqn:Ht; [ | reflexivity].
  destruct v; try reflexivity. now elim (Hv s).
Qed.

Lemma verify_answer_not_a_string_witness :
  verify_answer "erin" "42" Edge.w_erin = (Raise AttributeError, Edge.w_erin)
  /\ verify_answer "finn" "  " Edge.w_finn = (Ok true, Edge.w_finn).
Proof.
  split.
  - apply (verify_answer_not_a_string "erin" "42" Edge.w_erin
             (VDict Edge.erin) (VInt 42)); try reflexivity. discriminate.
  - apply (verify_answer_not_a_string "finn" "  " Edge.w_finn
             (VDict Edge.finn) (VInt 0)); try reflexivity. discriminate.
Defined.

(** X14. The guard on a blank identity is in [load_case] only.  For an
    identity that is blank after trimming, [load_case] returns no case and
    [verify_answer] returns false whatever the store holds, without raising;
    [update_case] still scans, and when a record with an empty or missing
    name comes first among the matches it updates that record and returns
    the saved outcome. *)
Theorem blank_identity_guard (path now : string) (fault : write_fault)
  (u a s n : string) (w : world) :
  is_empty (normalize u) = true ->
  load_case u w = (Ok None, w)
  /\ verify_answer u a w = (Ok false, w)
  /\ (forall pre d post h,
        first_match "" (stored_cases w) pre d post ->
        history_of d = Some h ->
        update_case path now fault u s n w
        = (Ok (saved path),
           snd (_write_db fault
                  (pre ++ VDict (updated s n now h d) :: post) w))).
Proof.
  intros Hkey.
  assert (Hload : load_case u w = (Ok None, w))
    by now rewrite load_case_run, Hkey.
  repeat split.
  - exact Hload.
  - unfold verify_answer. now rewrite bind_M_run, Hload.
  - intros pre d post h Hfm Hh.
    assert (Hempty : normalize u = "")
      by (destruct (normalize u); [reflexivity | discriminate]).
    rewrite update_case_run, Hempty.
    now rewrite (update_loop_first_match s n now _ _ _ _ _ _ Hfm Hh).
Qed.

Lemma blank_identity_guard_witness :
  load_case "  " Edge.w_anon = (Ok None, Edge.w_anon)
  /\ verify_answer "  " "" Edge.w_anon = (Ok false, Edge.w_anon)
  /\ update_case Scenario.path "2025-11-27T10:00:00" NoFault
       "  " "confirmed_fraud" "card blocked" Edge.w_anon
     = (Ok (saved Scenario.path),
        snd (_write_db NoFault
               ([] ++ VDict (updated "confirmed_fraud" "card blocked"
                               "2025-11-27T10:00:00" [] Edge.anon) :: [])
               Edge.w_anon)).
Proof.
  destruct (blank_identity_guard Scenario.path "2025-11-27T10:00:00" NoFault
              "  " "" "confirmed_fraud" "card blocked" Edge.w_anon
              ltac:(reflexivity)) as (Hload & Hverify & Hupdate).
  split; [exact Hload | split; [exact Hverify | ]].
  apply (Hupdate [] Edge.anon [] []).
  - repeat split. constructor.
  - reflexivity.
Defined.

(* ------------------------------------------------------------------------- *)
(** ** One update after another *)
(* ------------------------------------------------------------------------- *)

Lemma mutate_case_kept_or_updated (s n now : string) (c c' : value) :
  mutate_case s n now c = Ok c' -> kept_or_updated s n now c c'.
Proof.
  intros H. destruct (mutate_case_inv _ _ _ _ _ H) as (d & h & -> & Hh & ->).
  right. eauto.
Qed.

(** The mutation succeeds on a case exactly when it succeeds on the case as
    an earlier update left it. *)
Lemma mutate_case_after_update (s0 n0 now0 s n now : string) (c c' : value) :
  kept_or_updated s0 n0 now0 c c' ->
  match mutate_case s n now c, mutate_case s n now c' with
  | Ok _, Ok _ => True
  | Raise e, Raise e' => e = e'
  | _, _ => False
  end.
Proof.
  intros [-> | (d & h & -> & Hh & ->)].
  - now destruct (mutate_case s n now c).
  - rewrite (mutate_case_ok s n now d h Hh).
    now rewrite (mutate_case_ok s n now _ _ (updated_history_of s0 n0 now0 h d)).
Qed.

Lemma update_loop_kept_or_updated (s0 n0 now0 key s n now : string)
  (cs cs' : list value) :
  Forall2 (kept_or_updated s0 n0 now0) cs cs' ->
  match update_loop key s n now cs, update_loop key s n now cs' with
  | Ok None, Ok None => True
  | Ok (Some _), Ok (Some _) => True
  | Raise e, Raise e' => e = e'
  | _, _ => False
  end.
Proof.
  induction 1 as [ | c c' cs cs' Hc _ IH]; cbn [update_loop]; [exact I | ].
  rewrite (kept_or_updated_name_matches s0 n0 now0 key c c' Hc).
  destruct (name_matches key c) as [[ | ] | e]; cbn [bind Monad_result].
  - pose proof (mutate_case_after_update s0 n0 now0 s n now c c' Hc) as Hm.
    destruct (mutate_case s n now c), (mutate_case s n now c'); cbn; tauto.
  - destruct (update_loop key s n now cs) as [[r | ] | e],
      (update_loop key s n now cs') as [[r' | ] | e']; cbn; tauto.
  - reflexivity.
Qed.

(** X15. What an update returns does not depend on an update before it:
    whatever an earlier [update_case] did, for any identity and under any
    write fault, a later [update_case] returns the saved outcome, the
    not-found outcome or raises exactly as it would have on the store from
    before. *)
Theorem update_outcome_independent (path now0 now : string)
  (fault0 fault : write_fault) (u0 s0 n0 u s n : string) (w : world) :
  fst (update_case path now fault u s n
         (snd (update_case path now0 fault0 u0 s0 n0 w)))
  = fst (update_case path now fault u s n w).
Proof.
  pose proof (update_case_cases path now0 fault0 u0 s0 n0 w) as Hrel.
  set (w1 := snd (update_case path now0 fault0 u0 s0 n0 w)) in *.
  rewrite !update_case_run.
  pose proof (update_loop_kept_or_updated s0 n0 now0 (normalize u) s n now
                _ _ Hrel) as Hl.
  destruct (update_loop (normalize u) s n now (stored_cases w))
    as [[r | ] | e];
    destruct (update_loop (normalize u) s n now (stored_cases w1))
      as [[r1 | ] | e1]; try contradiction; try reflexivity.
  now subst e1.
Qed.

Section Commute.

Variables kA sA nA tA kB sB nB tB : string.
Hypothesis keys_differ : kA <> kB.

Lemma name_matches_one_key (c : value) :
  name_matches kA c = Ok true -> name_matches kB c = Ok true -> False.
Proof.
  unfold name_matches.
  destruct (value_get "userName" c) as [o | e]; cbn; [ | discriminate].
  destruct (method_lower _) as [x | e]; cbn; [ | discriminate].
  intros [= HA] [= HB]. apply String.eqb_eq in HA, HB. congruence.
Qed.

Lemma name_matches_raise_any_key (k k' : string) (c : value) (e : exn) :
  name_matches k c = Raise e -> name_matches k' c = Raise e.
Proof.
  unfold name_matches.
  destruct (value_get "userName" c) as [o | e0]; cbn; [ | trivial].
  destruct (method_lower _) as [x | e0]; cbn; [discriminate | trivial].
Qed.

Lemma apply_update_no_match (k s n t : string) (c : value)
  (rest : list value) :
  name_matches k c = Ok false ->
  apply_update k s n t (c :: rest) = c :: apply_update k s n t rest.
Proof.
  intros H. unfold apply_update. cbn [update_loop]. rewrite H.
  cbn [bind Monad_result].
  now destruct (update_loop k s n t rest) as [[r | ] | e].
Qed.

Lemma apply_update_match (k s n t : string) (c : value) (rest : list value) :
  name_matches k c = Ok true ->
  apply_update k s n t (c :: rest)
  = match mutate_case s n t c with Ok c' => c' | Raise _ => c end :: rest.
Proof.
  intros H. unfold apply_update. cbn [update_loop]. rewrite H.
  cbn [bind Monad_result]. now destruct (mutate_case s n t c).
Qed.

Lemma apply_update_raise (k s n t : string) (c : value) (rest : list value)
  (e : exn) :
  name_matches k c = Raise e -> apply_update k s n t (c :: rest) = c :: rest.
Proof.
  intros H. unfold apply_update. cbn [update_loop]. now rewrite H.
Qed.

Lemma name_matches_mutated (k s n t : string) (c : value) :
  name_matches k match mutate_case s n t c with Ok c' => c' | Raise _ => c end
  = name_matches k c.
Proof.
  destruct (mutate_case s n t c) as [c' | e] eqn:H; [ | reflexivity].
  eapply kept_or_updated_name_matches, mutate_case_kept_or_updated, H.
Qed.

Lemma apply_update_comm (cases : list value) :
  apply_update kB sB nB tB (apply_update kA sA nA tA cases)
  = apply_update kA sA nA tA (apply_update kB sB nB tB cases).
Proof.
  induction cases as [ | c rest IH]; [reflexivity | ].
  destruct (name_matches kA c) as [[ | ] | eA] eqn:HA;
    destruct (name_matches kB c) as [[ | ] | eB] eqn:HB.
  - now elim (name_matches_one_key c).
  - rewrite (apply_update_match kA sA nA tA c rest HA).
    rewrite (apply_update_no_match kB sB nB tB c rest HB).
    rewrite (apply_update_no_match kB sB nB tB _ rest)
      by (now rewrite name_matches_mutated).
    now rewrite (apply_update_match kA sA nA tA c _ HA).
  - rewrite (name_matches_raise_any_key kB kA c eB HB) in HA. discriminate.
  - rewrite (apply_update_no_match kA sA nA tA c rest HA).
    rewrite (apply_update_match kB sB nB tB c rest HB).
    rewrite (apply_update_no_match kA sA nA tA _ rest)
      by (now rewrite name_matches_mutated).
    now rewrite (apply_update_match kB sB nB tB c _ HB).
  - rewrite (apply_update_no_match kA sA nA tA c rest HA).
    rewrite (apply_update_no_match kB sB nB tB c rest HB).
    rewrite (apply_update_no_match kB sB nB tB c _ HB).
    rewrite (apply_update_no_match kA sA nA tA c _ HA).
    now rewrite IH.
  - rewrite (name_matches_raise_any_key kB kA c eB HB) in HA. discriminate.
  - rewrite (name_matches_raise_any_key kA kB c eA HA) in HB. discriminate.
  - rewrite (name_matches_raise_any_key kA kB c eA HA) in HB. discriminate.
  - rewrite (apply_update_raise kA sA nA tA c rest eA HA).
    rewrite (apply_update_raise kB sB nB tB c rest eB HB).
    now rewrite (apply_update_raise kA sA nA tA c rest eA HA).
Qed.

End Commute.

Lemma apply_update_rel (k s n t : string) (cases : list value) :
  Forall2 (kept_or_updated s n t) cases (apply_update k s n t cases).
Proof.
  unfold apply_update.
  destruct (update_loop k s n t cases) as [[cases' | ] | e] eqn:Hloop;
    try (apply Forall2_same; apply kept_or_updated_refl).
  destruct (update_loop_some_inv _ _ _ _ _ _ Hloop)
    as (pre & d & post & h & (-> & _ & _) & Hh & ->).
  apply Forall2_app; [apply Forall2_same; apply kept_or_updated_refl | ].
  constructor; [ | apply Forall2_same; apply kept_or_updated_refl].
  right. eauto.
Qed.

(** The files after a call whose write does not fail. *)
Lemma update_case_world (path now u s n : string) (w : world) :
  snd (update_case path now NoFault u s n w)
  = if reaches_write (normalize u) s n now (stored_cases w)
    then {| db_file :=
              Document (VList (apply_update (normalize u) s n now
                                 (stored_cases w)));
            tmp_file := Absent |}
    else w.
Proof.
  rewrite update_case_run. unfold reaches_write, apply_update.
  now destruct (update_loop (normalize u) s n now (stored_cases w))
    as [[cases' | ] | e].
Qed.

Lemma apply_update_noop (k s n t : string) (cases : list value) :
  reaches_write k s n t cases = false -> apply_update k s n t cases = cases.
Proof.
  unfold reaches_write, apply_update.
  now destruct (update_loop k s n t cases) as [[cases' | ] | e].
Qed.

Lemma stored_cases_after_update (path now u s n : string) (w : world) :
  stored_cases (snd (update_case path now NoFault u s n w))
  = apply_update (normalize u) s n now (stored_cases w).
Proof.
  rewrite update_case_world.
  destruct (reaches_write (normalize u) s n now (stored_cases w)) eqn:E;
    [reflexivity | now rewrite apply_update_noop].
Qed.

Lemma reaches_write_after_update (k0 s0 n0 t0 k s n t : string)
  (cases : list value) :
  reaches_write k s n t (apply_update k0 s0 n0 t0 cases)
  = reaches_write k s n t cases.
Proof.
  pose proof (update_loop_kept_or_updated s0 n0 t0 k s n t _ _
                (apply_update_rel k0 s0 n0 t0 cases)) as H.
  unfold reaches_write.
  destruct (update_loop k s n t cases) as [[r | ] | e];
    destruct (update_loop k s n t (apply_update k0 s0 n0 t0 cases))
      as [[r' | ] | e']; try contradiction; reflexivity.
Qed.

(** With the clock value that each call reads held fixed, updates of two
    different identities can be swapped. *)
Lemma update_case_swap (path : string)
  (tA uA sA nA tB uB sB nB : string) (w : world) :
  normalize uA <> normalize uB ->
  snd (update_case path tB NoFault uB sB nB
         (snd (update_case path tA NoFault uA sA nA w)))
  = snd (update_case path tA NoFault uA sA nA
           (snd (update_case path tB NoFault uB sB nB w))).
Proof.
  intros Hne.
  rewrite (update_case_world path tB uB sB nB
             (snd (update_case path tA NoFault uA sA nA w))).
  rewrite (update_case_world path tA uA sA nA
             (snd (update_case path tB NoFault uB sB nB w))).
  rewrite !stored_cases_after_update, !reaches_write_after_update.
  rewrite (apply_update_comm (normalize uA) sA nA tA (normalize uB) sB nB tB
             Hne (stored_cases w)).
  rewrite !update_case_world.
  destruct (reaches_write (normalize uA) sA nA tA (stored_cases w)) eqn:EA;
    destruct (reaches_write (normalize uB) sB nB tB (stored_cases w)) eqn:EB;
    try reflexivity.
  - now rewrite (apply_update_noop _ _ _ _ _ EB).
  - rewrite (apply_update_noop (normalize uA) sA nA tA (apply_update _ _ _ _ _));
      [reflexivity | now rewrite reaches_write_after_update].
Qed.

(** X16. Two updates of different identities that read the same clock value
    (both calls run within one second) commute: when the writes do not fail,
    running one call and then the other leaves the same files as running
    them in the other order, whatever the store holds. *)
Theorem updates_in_one_second_commute (path now : string)
  (uA sA nA uB sB nB : string) (w : world) :
  normalize uA <> normalize uB ->
  snd (update_case path now NoFault uB sB nB
         (snd (update_case path now NoFault uA sA nA w)))
  = snd (update_case path now NoFault uA sA nA
           (snd (update_case path now NoFault uB sB nB w))).
Proof. apply update_case_swap. Qed.

Lemma updates_in_one_second_commute_witness :
  snd (update_case Scenario.path "2025-11-27T10:00:00" NoFault
         "bob" "confirmed_fraud" "card blocked"
         (snd (update_case Scenario.path "2025-11-27T10:00:00" NoFault
                 "alice" "confirmed_safe" "ok" Race.w0)))
  = snd (update_case Scenario.path "2025-11-27T10:00:00" NoFault
           "alice" "confirmed_safe" "ok"
           (snd (update_case Scenario.path "2025-11-27T10:00:00" NoFault
                   "bob" "confirmed_fraud" "card blocked" Race.w0))).
Proof.
  apply (updates_in_one_second_commute Scenario.path "2025-11-27T10:00:00"
           "alice" "confirmed_safe" "ok" "bob" "confirmed_fraud"
           "card blocked" Race.w0).
  discriminate.
Defined.

(* ------------------------------------------------------------------------- *)
(** ** Two calls at once *)
(* ------------------------------------------------------------------------- *)

Section InterleavingFacts.

Import Interleaving.

Variable path : string.
Variables a b : call.

Lemma run_app (l1 l2 : list turn) (c : config) :
  run path a b (l1 ++ l2) c
  = match run path a b l1 c with
    | Some c' => run path a b l2 c'
    | None => None
    end.
Proof.
  revert c. induction l1 as [ | t l1 IH]; intros c; cbn [app run];
    [reflexivity | ].
  now destruct (sched path a b t c).
Qed.

Lemma read_step_run (x : call) (w : world) :
  read_step x w
  = (match update_loop (normalize (c_userName x)) (c_status x)
             (c_outcomeNote x) (c_now x) (stored_cases w) with
     | Ok (Some cases') => Loaded cases'
     | Ok None => Returned (Ok not_found)
     | Raise e => Returned (Raise e)
     end, w).
Proof.
  unfold read_step. rewrite bind_M_run, read_db_run. unfold lift.
  now destruct (update_loop _ _ _ _ _) as [[cases' | ] | e].
Qed.

(** A call that has returned takes no further step. *)
Lemma returned_stays (t : turn) (r : result string) (l : list turn)
  (c : config) :
  pc_of t c = Returned r ->
  Forall (fun t' => t' = t) l ->
  run path a b l c = Some c.
Proof.
  intros Hpc Hl. induction Hl as [ | t' l -> _ IH]; [reflexivity | ].
  cbn [run]. unfold sched, step. now rewrite Hpc.
Qed.

Lemma read_turn (t : turn) (c : config) :
  pc_of t c = Start ->
  run path a b [t] c
  = Some (make t
            match update_loop (normalize (c_userName (call_of a b t)))
                    (c_status (call_of a b t)) (c_outcomeNote (call_of a b t))
                    (c_now (call_of a b t)) (stored_cases (fs c)) with
            | Ok (Some cases') => Loaded cases'
            | Ok None => Returned (Ok not_found)
            | Raise e => Returned (Raise e)
            end
            (pc_of (other t) c) (fs c) (tmp_written c) (db_written c)).
Proof.
  intros Hpc. cbn [run]. unfold sched, step. rewrite Hpc.
  now rewrite read_step_run.
Qed.

(** The three statements of [_write_db], run while the other call holds no
    file open, are [_write_db]. *)
Lemma write_turns (t : turn) (c : config) (cases' : list value) :
  pc_of t c = Loaded cases' ->
  quiet (pc_of (other t) c) = true ->
  exists c',
    run path a b [t; t; t] c = Some c'
    /\ pc_of t c' = Returned (Ok (saved path))
    /\ pc_of (other t) c' = pc_of (other t) c
    /\ fs c' = snd (_write_db (c_fault (call_of a b t)) cases' (fs c)).
Proof.
  destruct c as [pA pB w tw dw].
  destruct a as [ta fa ua sa na], b as [tb fb ub sb nb].
  destruct t; cbn [pc_of other pcA pcB]; intros -> Hq;
    [destruct fa, pB | destruct fb, pA];
    try discriminate Hq; cbn; eexists; repeat split.
Qed.

(** The statements of one call, run while the other call holds no file
    open, are the call. *)
Lemma call_turns (t : turn) (c : config) :
  pc_of t c = Start ->
  quiet (pc_of (other t) c) = true ->
  exists c',
    run path a b [t; t; t; t] c = Some c'
    /\ pc_of t c' = Returned (fst (run_call path (call_of a b t) (fs c)))
    /\ pc_of (other t) c' = pc_of (other t) c
    /\ fs c' = snd (run_call path (call_of a b t) (fs c)).
Proof.
  intros Hpc Hq.
  change [t; t; t; t] with ([t] ++ [t; t; t]). rewrite run_app.
  cbn [run]. unfold sched at 1. unfold step. rewrite Hpc.
  rewrite read_step_run. unfold run_call. rewrite update_case_run.
  set (x := call_of a b t).
  destruct (update_loop (normalize (c_userName x)) (c_status x)
              (c_outcomeNote x) (c_now x) (stored_cases (fs c)))
    as [[cases' | ] | e]; cbv beta iota.
  - set (c1 := make t (Loaded cases') _ _ _ _).
    destruct (write_turns t c1 cases') as (c' & Hrun & Hme & Hother & Hfs).
    + now destruct t.
    + destruct t; exact Hq.
    + exists c'. split; [exact Hrun | ]. split; [exact Hme | ]. split.
      * rewrite Hother. now destruct t.
      * rewrite Hfs. now destruct t.
  - set (c1 := make t (Returned (Ok not_found)) _ _ _ _).
    exists c1. split.
    + apply (returned_stays t (Ok not_found) [t; t; t] c1);
        [now destruct t | repeat constructor].
    + now destruct t.
  - set (c1 := make t (Returned (Raise e)) _ _ _ _).
    exists c1. split.
    + apply (returned_stays t (Raise e) [t; t; t] c1);
        [now destruct t | repeat constructor].
    + now destruct t.
Qed.

Lemma run_serial (w : world) :
  exists c,
    run path a b serial (init w) = Some c
    /\ pcA c = Returned (fst (run_call path a w))
    /\ pcB c = Returned (fst (run_call path b (snd (run_call path a w))))
    /\ fs c = snd (run_call path b (snd (run_call path a w))).
Proof.
  change serial with ([A; A; A; A] ++ [B; B; B; B]). rewrite run_app.
  destruct (call_turns A (init w) eq_refl eq_refl)
    as (c1 & -> & HA1 & HB1 & Hfs1).
  cbn [pc_of other call_of init pcA pcB fs] in *.
  destruct (call_turns B c1) as (c2 & Hrun & HB2 & HA2 & Hfs2).
  - exact HB1.
  - cbn [pc_of other]. now rewrite HA1.
  - cbn [pc_of other call_of] in *. exists c2.
    rewrite Hrun, HA2, HA1, HB2, Hfs2, Hfs1. repeat split.
Qed.

Lemma run_call_saved_inv (x : call) (w : world) :
  fst (run_call path x w) = Ok (saved path) ->
  exists cases',
    update_loop (normalize (c_userName x)) (c_status x) (c_outcomeNote x)
      (c_now x) (stored_cases w) = Ok (Some cases')
    /\ snd (run_call path x w) = snd (_write_db (c_fault x) cases' w).
Proof.
  unfold run_call. rewrite update_case_run.
  destruct (update_loop _ _ _ _ _) as [[cases' | ] | e]; cbn [fst snd];
    intros Hret.
  - eauto.
  - apply Ok_inj in Hret. discriminate Hret.
  - discriminate.
Qed.

Lemma run_interleaved (w : world) :
  c_fault b = NoFault ->
  fst (run_call path b w) = Ok (saved path) ->
  exists c,
    run path a b read_read_write_write (init w) = Some c
    /\ pcA c = Returned (fst (run_call path a w))
    /\ pcB c = Returned (Ok (saved path))
    /\ fs c = snd (run_call path b w).
Proof.
  intros Hfault Hsaved.
  destruct (run_call_saved_inv b w Hsaved) as (csB & HloopB & HfsB).
  rewrite HfsB, Hfault, write_db_no_fault. cbn [snd].
  change read_read_write_write with ([A] ++ [B] ++ [A; A; A] ++ [B; B; B]).
  rewrite run_app, (read_turn A (init w) eq_refl).
  rewrite run_app, (read_turn B) by reflexivity.
  cbn [call_of pc_of other init make pcA pcB fs tmp_written db_written].
  rewrite HloopB, run_app.
  unfold run_call. rewrite update_case_run.
  destruct (update_loop (normalize (c_userName a)) (c_status a)
              (c_outcomeNote a) (c_now a) (stored_cases w))
    as [[csA | ] | e].
  - match goal with
    | |- context [run path a b [A; A; A] ?c0] =>
        destruct (write_turns A c0 csA eq_refl eq_refl)
          as (c1 & -> & HA1 & HB1 & Hfs1)
    end.
    cbn [pc_of other call_of pcA pcB fs] in *.
    destruct (write_turns B c1 csB HB1) as (c2 & -> & HB2 & HA2 & Hfs2).
    + cbn [pc_of other]. now rewrite HA1.
    + cbn [pc_of other call_of] in *. exists c2.
      rewrite HA2, HA1, HB2, Hfs2, Hfault, write_db_no_fault.
      repeat split.
  - match goal with
    | |- context [run path a b [A; A; A] ?c0] =>
        rewrite (returned_stays A (Ok not_found) [A; A; A] c0 eq_refl)
          by repeat constructor;
        destruct (write_turns B c0 csB eq_refl eq_refl)
          as (c2 & -> & HB2 & HA2 & Hfs2)
    end.
    cbn [pc_of other call_of pcA pcB fs] in *. exists c2.
    rewrite HA2, HB2, Hfs2, Hfault, write_db_no_fault. repeat split.
  - match goal with
    | |- context [run path a b [A; A; A] ?c0] =>
        rewrite (returned_stays A (Raise e) [A; A; A] c0 eq_refl)
          by repeat constructor;
        destruct (write_turns B c0 csB eq_refl eq_refl)
          as (c2 & -> & HB2 & HA2 & Hfs2)
    end.
    cbn [pc_of other call_of pcA pcB fs] in *. exists c2.
    rewrite HA2, HB2, Hfs2, Hfault, write_db_no_fault. repeat split.
Qed.

End InterleavingFacts.

(** When the first of two calls run one after the other matched a case and
    its write did not fail, the second call's rewrite keeps its entry. *)
Lemma first_update_kept (path : string) (a b : Interleaving.call) (w : world)
  (pre : list value) (d : Dict.t) (post h : list value) :
  Interleaving.c_fault a = NoFault ->
  first_match (normalize (Interleaving.c_userName a)) (stored_cases w)
    pre d post ->
  history_of d = Some h ->
  exists pre' d' post' later,
    stored_cases
      (snd (Interleaving.run_call path b
              (snd (Interleaving.run_call path a w))))
    = pre' ++ VDict d' :: post'
    /\ length pre' = length pre
    /\ history_of d'
       = Some (h ++ VDict [("timestamp", VStr (Interleaving.c_now a));
                           ("note", VStr (Interleaving.c_outcomeNote a))]
                 :: later).
Proof.
  intros Hfault Hfm Hh. destruct a as [ta fa ua sa na], b as [tb fb ub sb nb].
  unfold Interleaving.run_call.
  cbn [Interleaving.c_now Interleaving.c_fault Interleaving.c_userName
         Interleaving.c_status Interleaving.c_outcomeNote] in *.
  subst fa.
  pose proof (update_case_cases path tb fb ub sb nb
                (snd (update_case path ta NoFault ua sa na w))) as Hrel.
  rewrite (update_case_run path ta NoFault ua sa na w) in Hrel at 1.
  rewrite (update_loop_first_match sa na ta _ _ _ _ _ _ Hfm Hh) in Hrel.
  rewrite write_db_no_fault in Hrel. unfold stored_cases at 1 in Hrel.
  cbn [snd db_file] in Hrel.
  apply Forall2_app_inv_l in Hrel.
  destruct Hrel as (pre' & rest & Hpre & Hrest & ->).
  inversion Hrest as [ | c c' l l' Hc Hpost]; subst.
  exists pre'.
  destruct Hc as [-> | (d0 & h0 & [= <-] & Hh0 & ->)].
  - exists (updated sa na ta h d), l', []. repeat split.
    + symmetry. eapply Forall2_length; exact Hpre.
    + apply updated_history_of.
  - exists (updated sb nb tb h0 (updated sa na ta h d)), l',
      [history_entry tb nb]. repeat split.
    + symmetry. eapply Forall2_length; exact Hpre.
    + rewrite updated_history_of in Hh0. injection Hh0 as <-.
      rewrite updated_history_of. now rewrite <- app_assoc.
Qed.

(** C1, as stated, fails: nothing keeps the second call from reading the
    store while the first is between its read and its write.  With the
    steps in the order read A, read B, write A, write B both calls are past
    their read before either has written, both return the saved outcome, and
    the store holds B's rewrite of the old document: the case updated by A
    is as it was before, while after either serial order both cases are
    updated. *)
Lemma interleaved_update_is_lost :
  Interleaving.run Scenario.path Race.callA Race.callB
    [Interleaving.A; Interleaving.B] (Interleaving.init Race.w0)
  = Some {| Interleaving.pcA :=
              Interleaving.Loaded [Race.alice_updated; Race.bob];
            Interleaving.pcB :=
              Interleaving.Loaded [Scenario.alice; Race.bob_updated];
            Interleaving.fs := Race.w0;
            Interleaving.tmp_written := false;
            Interleaving.db_written := false |}
  /\ Interleaving.run Scenario.path Race.callA Race.callB
       Interleaving.read_read_write_write (Interleaving.init Race.w0)
     = Some {| Interleaving.pcA :=
                 Interleaving.Returned (Ok "saved:/srv/backend/fraud_cases.json");
               Interleaving.pcB :=
                 Interleaving.Returned (Ok "saved:/srv/backend/fraud_cases.json");
               Interleaving.fs :=
                 {| db_file :=
                      Document (VList [Scenario.alice; Race.bob_updated]);
                    tmp_file := Absent |};
               Interleaving.tmp_written := false;
               Interleaving.db_written := true |}
  /\ snd (Interleaving.run_call Scenario.path Race.callB
            (snd (Interleaving.run_call Scenario.path Race.callA Race.w0)))
     = {| db_file := Document (VList [Race.alice_updated; Race.bob_updated]);
          tmp_file := Absent |}
  /\ snd (Interleaving.run_call Scenario.path Race.callA
            (snd (Interleaving.run_call Scenario.path Race.callB Race.w0)))
     = {| db_file := Document (VList [Race.alice_updated; Race.bob_updated]);
          tmp_file := Absent |}.
Proof. repeat split. Qed.

(** The statements of [_write_db] can be separated too: when B truncates
    the shared temporary file between A's dump and A's replace, A installs
    an empty document, and until B's dump a reader finds no case. *)
Example truncated_before_replace_run :
  exists c,
    Interleaving.run Scenario.path Race.callA Race.callB
      Interleaving.truncated_before_replace (Interleaving.init Race.w0)
    = Some c
    /\ Interleaving.fs c = {| db_file := Malformed; tmp_file := Absent |}
    /\ Interleaving.pcA c
       = Interleaving.Returned (Ok "saved:/srv/backend/fraud_cases.json")
    /\ Interleaving.pcB c
       = Interleaving.Opened [Scenario.alice; Race.bob_updated]
           Interleaving.AtDb
    /\ fst (load_case "alice" (Interleaving.fs c)) = Ok None
    /\ (exists c',
          Interleaving.run Scenario.path Race.callA Race.callB
            [Interleaving.B; Interleaving.B] c = Some c'
          /\ Interleaving.fs c'
             = {| db_file :=
                    Document (VList [Scenario.alice; Race.bob_updated]);
                  tmp_file := Absent |}).
Proof. eexists. repeat split. eexists. repeat split. Qed.

(** C1, amended.  [update_case] takes no lock; its read of the store (with
    the mutation in memory) and the three statements of its write are
    separate steps on shared files.  When all steps of one call run before
    those of the other, each call returns, and the files end, as with the
    two calls in sequence; and if the first call matched a case (whose
    history is a sequence or missing) and its write did not fail, that case
    is at its place in the final store with the first call's entry in its
    history, directly after the old entries.  When the steps interleave as
    read A, read B, write A, write B, and B returns the saved outcome when
    run alone and its write does not fail, each call returns what it returns
    when run alone and the files end as if B alone had run: the last writer
    wins. *)
Theorem update_case_last_writer_wins (path : string)
  (a b : Interleaving.call) (w : world) :
  (exists c,
      Interleaving.run path a b Interleaving.serial (Interleaving.init w)
      = Some c
      /\ Interleaving.pcA c
         = Interleaving.Returned (fst (Interleaving.run_call path a w))
      /\ Interleaving.pcB c
         = Interleaving.Returned
             (fst (Interleaving.run_call path b
                     (snd (Interleaving.run_call path a w))))
      /\ Interleaving.fs c
         = snd (Interleaving.run_call path b
                  (snd (Interleaving.run_call path a w)))
      /\ (Interleaving.c_fault a = NoFault ->
          forall pre d post h,
            first_match (normalize (Interleaving.c_userName a))
              (stored_cases w) pre d post ->
            history_of d = Some h ->
            exists pre' d' post' later,
              stored_cases (Interleaving.fs c) = pre' ++ VDict d' :: post'
              /\ length pre' = length pre
              /\ history_of d'
                 = Some (h ++ VDict [("timestamp",
                                      VStr (Interleaving.c_now a));
                                     ("note",
                                      VStr (Interleaving.c_outcomeNote a))]
                           :: later)))
  /\ (Interleaving.c_fault b = NoFault ->
      fst (Interleaving.run_call path b w) = Ok ("saved:" ++ path)%string ->
      exists c,
        Interleaving.run path a b Interleaving.read_read_write_write
          (Interleaving.init w)
        = Some c
        /\ Interleaving.pcA c
           = Interleaving.Returned (fst (Interleaving.run_call path a w))
        /\ Interleaving.pcB c
           = Interleaving.Returned (Ok ("saved:" ++ path)%string)
        /\ Interleaving.fs c = snd (Interleaving.run_call path b w)).
Proof.
  split.
  - destruct (run_serial path a b w) as (c & Hrun & HA & HB & Hfs).
    exists c. repeat split; try assumption.
    intros Hfault pre d post h Hfm Hh. rewrite Hfs.
    exact (first_update_kept path a b w pre d post h Hfault Hfm Hh).
  - apply run_interleaved.
Qed.

Lemma update_case_last_writer_wins_witness :
  (exists c,
      Interleaving.run Scenario.path Race.callA Race.callB Interleaving.serial
        (Interleaving.init Race.w0) = Some c
      /\ exists pre' d' post' later,
           stored_cases (Interleaving.fs c) = pre' ++ VDict d' :: post'
           /\ length pre' = 0
           /\ history_of d'
              = Some ([] ++ VDict [("timestamp", VStr "2025-11-27T10:00:00");
                                   ("note", VStr "ok")] :: later))
  /\ (exists c,
        Interleaving.run Scenario.path Race.callA Race.callB
          Interleaving.read_read_write_write (Interleaving.init Race.w0)
        = Some c
        /\ Interleaving.pcA c
           = Interleaving.Returned
               (fst (Interleaving.run_call Scenario.path Race.callA Race.w0))
        /\ Interleaving.pcB c
           = Interleaving.Returned (Ok "saved:/srv/backend/fraud_cases.json")
        /\ Interleaving.fs c
           = snd (Interleaving.run_call Scenario.path Race.callB Race.w0)).
Proof.
  destruct (update_case_last_writer_wins Scenario.path Race.callA Race.callB
              Race.w0) as [(c & Hrun & _ & _ & _ & Hkept) Hlost].
  split.
  - exists c. split; [exact Hrun | ].
    apply (Hkept eq_refl []
             [("userName", VStr "alice"); ("securityAnswer", VStr "blue");
              ("status", VStr "pending"); ("history", VList [])]
             [Race.bob] []).
    + repeat split. constructor.
    + reflexivity.
  - apply Hlost; reflexivity.
Defined.

(** X17. The temporary file is shared, so the replace is not atomic across
    calls.  For two calls that each return the saved outcome when run alone,
    A with a write that does not fail and B not failing at the open: when B
    opens (and so truncates) the temporary file after A has dumped into it
    and before A replaces, A installs an empty document at [DB_PATH] and
    returns the saved outcome; a read then yields no cases. *)
Theorem truncated_temp_file_is_installed (path : string)
  (a b : Interleaving.call) (w : world) :
  Interleaving.c_fault a = NoFault ->
  Interleaving.c_fault b <> FailOpen ->
  fst (Interleaving.run_call path a w) = Ok ("saved:" ++ path)%string ->
  fst (Interleaving.run_call path b w) = Ok ("saved:" ++ path)%string ->
  exists c,
    Interleaving.run path a b Interleaving.truncated_before_replace
      (Interleaving.init w) = Some c
    /\ Interleaving.pcA c
       = Interleaving.Returned (Ok ("saved:" ++ path)%string)
    /\ Interleaving.fs c = {| db_file := Malformed; tmp_file := Absent |}
    /\ _read_db (Interleaving.fs c) = (Ok [], Interleaving.fs c).
Proof.
  intros Hfa Hfb HA HB.
  destruct (run_call_saved_inv path a w HA) as (csA & HloopA & _).
  destruct (run_call_saved_inv path b w HB) as (csB & HloopB & _).
  destruct a as [ta fa ua sa na], b as [tb fb ub sb nb].
  cbn [Interleaving.c_now Interleaving.c_fault Interleaving.c_userName
         Interleaving.c_status Interleaving.c_outcomeNote] in *.
  subst fa. unfold stored_cases in HloopA, HloopB.
  unfold Interleaving.truncated_before_replace, Interleaving.init.
  cbn -[Interleaving.read_step update_loop normalize saved].
  rewrite read_step_run. cbn -[update_loop normalize saved].
  unfold stored_cases. rewrite HloopA.
  cbn -[Interleaving.read_step update_loop normalize saved].
  rewrite read_step_run. cbn -[update_loop normalize saved].
  unfold stored_cases. cbn [db_file]. rewrite HloopB.
  destruct fb; try (now elim Hfb);
    cbn -[saved]; eexists; repeat split.
Qed.

Lemma truncated_temp_file_is_installed_witness :
  exists c,
    Interleaving.run Scenario.path Race.callA Race.callB
      Interleaving.truncated_before_replace (Interleaving.init Race.w0)
    = Some c
    /\ Interleaving.pcA c
       = Interleaving.Returned (Ok "saved:/srv/backend/fraud_cases.json")
    /\ Interleaving.fs c = {| db_file := Malformed; tmp_file := Absent |}
    /\ _read_db (Interleaving.fs c) = (Ok [], Interleaving.fs c).
Proof.
  apply (truncated_temp_file_is_installed Scenario.path Race.callA Race.callB
           Race.w0); try reflexivity.
  discriminate.
Defined.
